(** * R / Python conversion notebook: a shallow embedding

    The notebook [r-python-conversion.ipynb] converts single-cell datasets
    between R's [SingleCellExperiment] and Python's [AnnData].  Every code
    cell is a short sequence of library calls; the definitions below embed
    the cells of section 3 of the notebook ("A few notes") and the bridge
    conversions of section 2, each library primitive being written out as
    the function the cell relies on.

    Conventions.
    - A Python or R character string is a [string]: a sequence of code
      points below 256.  Python's whitespace and lower-case tables are
      written out for that range.
    - A matrix entry is an IEEE binary64 value, [spec_float] with
      precision 53 and maximal exponent 1024.  A NaN is a single value
      there: its sign and payload are not part of the embedding, and what
      is said bit for bit is said of finite entries.
    - R runs in a UTF-8 session: its character classes are those of the
      wide-character functions, written out for code points below 256.
    - A pandas [DataFrame] keeps its column labels ([columns]) apart from
      its column data ([series]), exactly as pandas does: labels are an
      [Index] object of their own and data are addressed by position. *)

From Stdlib Require Import String Ascii Bool Arith NArith ZArith Lia List.
From Stdlib Require Import Permutation.
From Stdlib Require Import Floats.SpecFloat.
From Stdlib Require DecimalString DecimalNat.
Import ListNotations.

Local Open Scope list_scope.

(** ** Option sequencing, for cells that may raise *)

Definition bind {A B : Type} (o : option A) (k : A -> option B) : option B :=
  match o with
  | Some a => k a
  | None => None
  end.

Notation "x <- o ;; k" := (bind o (fun x => k))
  (at level 61, o at next level, right associativity).

(** A string rewritten character by character. *)
Fixpoint map_chars (f : ascii -> ascii) (s : string) : string :=
  match s with
  | EmptyString => EmptyString
  | String c s' => String (f c) (map_chars f s')
  end.

(** ** Python [str] primitives used by the notebook *)

Module PyStr.

(** [str.isspace] on one code point: U+0009..U+000D, U+001C..U+0020,
    U+0085 and U+00A0 are the white-space code points below 256. *)
Definition isspace (c : ascii) : bool :=
  let n := N_of_ascii c in
  ((9 <=? n) && (n <=? 13) || (28 <=? n) && (n <=? 32)
   || (n =? 133) || (n =? 160))%N.

(** [str.lower] on one code point: A..Z and the Latin-1 capitals
    U+00C0..U+00DE (the multiplication sign U+00D7 apart) move up by 32. *)
Definition lower_char (c : ascii) : ascii :=
  let n := N_of_ascii c in
  if ((65 <=? n) && (n <=? 90)
      || (192 <=? n) && (n <=? 222) && negb (n =? 215))%N
  then ascii_of_N (n + 32)
  else c.

(** [s.lower()] *)
Definition lower (s : string) : string := map_chars lower_char s.

(** [s.lstrip()]: drop white space from the left. *)
Fixpoint lstrip (s : string) : string :=
  match s with
  | EmptyString => EmptyString
  | String c s' => if isspace c then lstrip s' else s
  end.

(** [s.rstrip()]: drop white space from the right. *)
Fixpoint rstrip (s : string) : string :=
  match s with
  | EmptyString => EmptyString
  | String c s' =>
      match rstrip s' with
      | EmptyString => if isspace c then EmptyString else String c EmptyString
      | r => String c r
      end
  end.

(** [s.strip()]: the left scan first, then the right scan on what is left. *)
Definition strip (s : string) : string := rstrip (lstrip s).

(** [s.replace(old, new)] for one-character [old] and [new].  This is what
    [Index.str.replace(' ', '_')] and [Index.str.replace('.', '_')] do on
    each label: a pattern of length one is taken literally, the period
    included. *)
Definition replace (old new : ascii) (s : string) : string :=
  map_chars (fun c => if Ascii.eqb c old then new else c) s.

End PyStr.

(** ** Numeric storage *)

Definition float64 := spec_float.

Definition pzero : float64 := S754_zero false.
Definition nzero : float64 := S754_zero true.

(** IEEE addition and equality on binary64. *)
Definition fadd (x y : float64) : float64 := SFadd 53 1024 x y.
Definition feqb (x y : float64) : bool := SFeqb x y.

(** A two-dimensional dense array: its shape and its rows. *)
Record ndarray := {
  nrows : nat;
  ncols : nat;
  rows : list (list float64)
}.

(** Compressed sparse storage (scipy's [csr_matrix]): [data] holds the
    stored entries row after row, [indices] their column numbers, and row
    [i] owns the positions [indptr[i] .. indptr[i+1] - 1]. *)
Record compressed := {
  c_nrows : nat;
  c_ncols : nat;
  data : list float64;
  indices : list nat;
  indptr : list nat
}.

(** [adata.X] is a dense array or a csr matrix. *)
Inductive pymatrix :=
| PyDense (a : ndarray)
| PyCsr (c : compressed).

(** ** Python [dict]: string keys, in the order of their insertion *)

(** [d[k] = v]: a key that is there keeps its place and takes the new
    value, a new key goes to the end. *)
Fixpoint dict_set {V : Type} (d : list (string * V)) (k : string) (v : V)
  : list (string * V) :=
  match d with
  | [] => [(k, v)]
  | (k', v') :: d' =>
      if String.eqb k' k then (k', v) :: d' else (k', v') :: dict_set d' k v
  end.

(** [{k: v for k, v in items}] *)
Definition dict {V : Type} (items : list (string * V)) : list (string * V) :=
  fold_left (fun d kv => dict_set d (fst kv) (snd kv)) items [].

(** ** Data frames and AnnData *)

#[local] Set Warnings "-register-all".

(** A value held in an annotation column or in an index; an index built
    from several columns holds one tuple per row. *)
Inductive cell :=
| CStr (s : string)
| CNum (x : float64)
| CTuple (t : list cell).

Record DataFrame := {
  index : list cell;
  index_name : option string;
  columns : list string;
  series : list (list cell)
}.

(** [adata.X], [adata.obs], [adata.var] and [adata.layers]; the
    observation identifiers [adata.obs_names] are [index (obs adata)] and
    the variable identifiers [adata.var_names] are [index (var adata)]. *)
Record AnnData := {
  X : pymatrix;
  obs : DataFrame;
  var : DataFrame;
  layers : list (string * pymatrix)
}.

Module Pandas.

(** [df.columns = labels]: the labels are replaced, the data stay where
    they are; pandas raises [ValueError] on a length mismatch. *)
Definition set_columns (df : DataFrame) (labels : list string)
  : option DataFrame :=
  if Nat.eqb (length labels) (length (columns df))
  then Some {| index := index df; index_name := index_name df;
               columns := labels; series := series df |}
  else None.

(** The new label of [l] under a [rename] mapper (a Python dict). *)
Fixpoint renamed (mapper : list (string * string)) (l : string) : string :=
  match mapper with
  | [] => l
  | (k, v) :: mapper' => if String.eqb l k then v else renamed mapper' l
  end.

(** [df.rename(columns=mapper)]: labels that are keys of [mapper] are
    replaced, the others and all data are kept. *)
Definition rename (df : DataFrame) (mapper : list (string * string))
  : DataFrame :=
  {| index := index df; index_name := index_name df;
     columns := map (renamed mapper) (columns df); series := series df |}.

(** The columns carrying the label [name], in order. *)
Fixpoint labelled (name : string) (labels : list string)
    (cols : list (list cell)) : list (list cell) :=
  match labels, cols with
  | l :: labels', c :: cols' =>
      if String.eqb l name then c :: labelled name labels' cols'
      else labelled name labels' cols'
  | _, _ => []
  end.

(** [df.items()]: the columns from left to right, each with its
    label. *)
Definition items (df : DataFrame) : list (string * list cell) :=
  combine (columns df) (series df).

(** What the attribute lookup [df.name] hands back: the column, when one
    column carries the label, and the frame made of the columns that
    carry it, when several do. *)
Inductive selection :=
| Series (c : list cell)
| Frame (cs : list (list cell)).

(** [df.name]; without a column of that label the lookup raises
    [AttributeError]. *)
Definition getattr (df : DataFrame) (name : string) : option selection :=
  match labelled name (columns df) (series df) with
  | [] => None
  | [c] => Some (Series c)
  | cs => Some (Frame cs)
  end.

(** Row [i] of a frame of columns, as one tuple (in a well-formed frame
    every column has a value there; a column too short reads as NaN). *)
Definition row_tuple (cs : list (list cell)) (i : nat) : cell :=
  CTuple (map (fun c => nth i c (CNum S754_nan)) cs).

(** The rows of a frame of [n] rows, one tuple each. *)
Definition tuples (n : nat) (cs : list (list cell)) : list cell :=
  map (row_tuple cs) (seq 0 n).

(** [df.index = s] for a column [s] labelled [name]: the index takes the
    values and the name of [s]; pandas raises [ValueError] on a length
    mismatch. *)
Definition set_index (df : DataFrame) (name : string) (s : list cell)
  : option DataFrame :=
  if Nat.eqb (length s) (length (index df))
  then Some {| index := s; index_name := Some name;
               columns := columns df; series := series df |}
  else None.

(** [df.index = v] for what [df.name] handed back.  A column gives the
    index its values and its name.  A frame (it has the rows of [df])
    gives an index of row tuples, which has no name. *)
Definition assign_index (df : DataFrame) (name : string) (v : selection)
  : option DataFrame :=
  match v with
  | Series c => set_index df name c
  | Frame cs =>
      Some {| index := tuples (length (index df)) cs; index_name := None;
              columns := columns df; series := series df |}
  end.

(** A frame is well formed: one data column per label, each as long as
    the index. *)
Definition well_formed (df : DataFrame) : Prop :=
  length (series df) = length (columns df) /\
  Forall (fun c => length c = length (index df)) (series df).

End Pandas.

(** ** Section 3 of the notebook, third cell: column-name normalisation

    [adata.obs.columns =
       adata.obs.columns.str.strip().str.lower()
            .str.replace(' ', '_').str.replace('.', '_')] *)

Definition normalize_name (s : string) : string :=
  PyStr.replace "." "_" (PyStr.replace " " "_" (PyStr.lower (PyStr.strip s))).

Definition normalize_observation_attribute_names (adata : AnnData)
  : option AnnData :=
  obs' <- Pandas.set_columns (obs adata)
            (map normalize_name (columns (obs adata))) ;;
  Some {| X := X adata; obs := obs'; var := var adata;
          layers := layers adata |}.

(** ** Dense and sparse storage: [scipy.sparse.csr_matrix] and back *)

Module Sparse.

(** [x != 0], the test [numpy.nonzero] applies: both zeros fail it, a NaN
    passes it. *)
Definition is_nonzero (x : float64) : bool := negb (feqb x pzero).

(** The stored entries of one dense row, with their column numbers,
    scanning from column [j]. *)
Fixpoint row_entries (j : nat) (r : list float64) : list (nat * float64) :=
  match r with
  | [] => []
  | x :: r' =>
      if is_nonzero x then (j, x) :: row_entries (S j) r'
      else row_entries (S j) r'
  end.

(** [indptr] of the rows [rs], the first row starting at [off]. *)
Fixpoint row_pointers (off : nat) (rs : list (list float64)) : list nat :=
  match rs with
  | [] => [off]
  | r :: rs' =>
      off :: row_pointers (off + length (row_entries 0 r)) rs'
  end.

(** [csr_matrix(a)] for a dense array [a]: the non-zero entries in
    row-major order. *)
Definition csr_of_dense (a : ndarray) : compressed :=
  let es := map (row_entries 0) (rows a) in
  {| c_nrows := nrows a;
     c_ncols := ncols a;
     data := map snd (concat es);
     indices := map fst (concat es);
     indptr := row_pointers 0 (rows a) |}.

(** [l[lo:hi]] *)
Definition slice {A : Type} (lo hi : nat) (l : list A) : list A :=
  firstn (hi - lo) (skipn lo l).

(** [row[j] += x]; a column number outside the row is left alone. *)
Fixpoint add_at (j : nat) (x : float64) (row : list float64)
  : list float64 :=
  match row, j with
  | [], _ => []
  | y :: row', O => fadd y x :: row'
  | y :: row', S j' => y :: add_at j' x row'
  end.

(** The inner loop of [csr_todense]: scatter the stored entries of a row
    into the output row. *)
Fixpoint scatter (row : list float64) (js : list nat) (xs : list float64)
  : list float64 :=
  match js, xs with
  | j :: js', x :: xs' => scatter (add_at j x row) js' xs'
  | _, _ => row
  end.

(** The outer loop of [csr_todense], over consecutive pairs of [indptr]. *)
Fixpoint dense_rows (m : nat) (ptr : list nat)
    (js : list nat) (xs : list float64) : list (list float64) :=
  match ptr with
  | lo :: ((hi :: _) as ptr') =>
      scatter (repeat pzero m) (slice lo hi js) (slice lo hi xs)
        :: dense_rows m ptr' js xs
  | _ => []
  end.

(** [c.toarray()] *)
Definition toarray (c : compressed) : ndarray :=
  {| nrows := c_nrows c;
     ncols := c_ncols c;
     rows := dense_rows (c_ncols c) (indptr c) (indices c) (data c) |}.

(** [csr_matrix(x)]: a dense array is compressed, a csr matrix is taken
    as it is. *)
Definition csr_matrix (x : pymatrix) : pymatrix :=
  match x with
  | PyDense a => PyCsr (csr_of_dense a)
  | PyCsr c => PyCsr c
  end.

(** Entry [(i, j)] of a dense array, [None] outside its rows. *)
Definition dense_entry (a : ndarray) (i j : nat) : option float64 :=
  r <- nth_error (rows a) i ;; nth_error r j.

(** Entry [(i, j)] of [adata.X]; a csr matrix is read through its dense
    form, so that repeated positions add up as scipy has them. *)
Definition entry (x : pymatrix) (i j : nat) : option float64 :=
  match x with
  | PyDense a => dense_entry a i j
  | PyCsr c => dense_entry (toarray c) i j
  end.

Definition shape (x : pymatrix) : nat * nat :=
  match x with
  | PyDense a => (nrows a, ncols a)
  | PyCsr c => (c_nrows c, c_ncols c)
  end.

(** A dense array is rectangular: as many rows as [nrows] says, each of
    [ncols] entries. *)
Definition rectangular (a : ndarray) : Prop :=
  length (rows a) = nrows a /\
  Forall (fun r => length r = ncols a) (rows a).

(** What a zero becomes once it has gone through sparse storage: the sign
    of a negative zero is not kept, every other value is. *)
Definition drop_zero_sign (x : float64) : float64 :=
  match x with
  | S754_zero _ => pzero
  | _ => x
  end.

End Sparse.

(** Section 3 of the notebook, fourth cell:
    [adata.X = csr_matrix(adata.X)] *)
Definition coerce_matrix_sparse (adata : AnnData) : AnnData :=
  {| X := Sparse.csr_matrix (X adata); obs := obs adata; var := var adata;
     layers := layers adata |}.


(** [adata.var = df]: AnnData takes the frame when it has one row per
    variable and raises [ValueError] otherwise. *)
Definition set_var (adata : AnnData) (df : DataFrame) : option AnnData :=
  if Nat.eqb (length (index df)) (snd (Sparse.shape (X adata)))
  then Some {| X := X adata; obs := obs adata; var := df;
               layers := layers adata |}
  else None.

(** The dict [{"rownames": "gene_ids"}]. *)
Definition gene_ids_mapper : list (string * string) :=
  [("rownames", "gene_ids")]%string.

(** Section 3 of the notebook, second cell, after [read_loom]:
    [adata.var = adata.var.rename(columns={"rownames": "gene_ids"})]
    [adata.var.index = adata.var.gene_ids] *)
Definition normalize_variable_identifiers (adata : AnnData)
  : option AnnData :=
  adata1 <- set_var adata (Pandas.rename (var adata) gene_ids_mapper) ;;
  ids <- Pandas.getattr (var adata1) "gene_ids" ;;
  var2 <- Pandas.assign_index (var adata1) "gene_ids" ids ;;
  Some {| X := X adata1; obs := obs adata1; var := var2;
          layers := layers adata1 |}.

(** The shape invariants of an [AnnData]: one observation per row of [X],
    one variable per column, and both frames well formed. *)
Definition consistent (adata : AnnData) : Prop :=
  length (index (obs adata)) = fst (Sparse.shape (X adata)) /\
  length (index (var adata)) = snd (Sparse.shape (X adata)) /\
  Pandas.well_formed (obs adata) /\
  Pandas.well_formed (var adata).

(** ** The R side: SingleCellExperiment *)

(** An assay matrix is an ordinary R matrix or a column-compressed
    [dgCMatrix]; the record of a [dgCMatrix] lists its columns, that is,
    it is the csr record of the transposed matrix. *)
Inductive rmatrix :=
| RDense (a : ndarray)
| RdgC (c : compressed).

(** An S4Vectors [DataFrame]: its row names, taken to be present, and
    the named list of its columns.  Row names carry no name of their
    own, unlike a pandas index. *)
Record DFrame := {
  rownames : list cell;
  listData : list (string * list cell)
}.

(** [colnames(f)] *)
Definition colnames (f : DFrame) : list string := map fst (listData f).

(** [assays(x)] is a named list, a name being possibly [NA];
    [rownames(x)] is [rownames (rowData x)] and [colnames(x)] is
    [rownames (colData x)].  An assay has one row per feature and one
    column per cell. *)
Record SingleCellExperiment := {
  assays : list (option string * rmatrix);
  rowData : DFrame;
  colData : DFrame
}.

Module R.

(** [names(l) <- value] on a list: the names are set position by
    position, missing ones are [NA], and a [value] longer than [l] is an
    error. *)
Fixpoint set_names {A : Type} (value : list string)
    (l : list (option string * A)) : option (list (option string * A)) :=
  match value, l with
  | [], _ => Some (map (fun p => (None, snd p)) l)
  | _ :: _, [] => None
  | v :: value', (_, a) :: l' =>
      l'' <- set_names value' l' ;; Some ((Some v, a) :: l'')
  end.

(** [iswalpha] on a code point below 256, as a UTF-8 session has it: the
    ASCII letters, the ordinal indicators U+00AA and U+00BA, the micro
    sign U+00B5, and the Latin-1 letters U+00C0..U+00FF, the
    multiplication sign U+00D7 and the division sign U+00F7 apart. *)
Definition is_alpha (c : ascii) : bool :=
  let n := N_of_ascii c in
  ((65 <=? n) && (n <=? 90) || (97 <=? n) && (n <=? 122)
   || (n =? 170) || (n =? 181) || (n =? 186)
   || (192 <=? n) && (n <=? 214) || (216 <=? n) && (n <=? 246)
   || (248 <=? n))%N.

(** [iswdigit]: the digits 0 to 9. *)
Definition is_digit (c : ascii) : bool :=
  let n := N_of_ascii c in ((48 <=? n) && (n <=? 57))%N.

(** A character allowed in a syntactic name: a letter or a digit, the
    period or the underscore. *)
Definition valid_char (c : ascii) : bool :=
  is_alpha c || is_digit c || Ascii.eqb c "." || Ascii.eqb c "_".

(** A name needs the prefix [X] unless it starts with a letter, or with a
    period that no digit follows. *)
Definition needs_prefix (s : string) : bool :=
  match s with
  | EmptyString => true
  | String c s' =>
      if Ascii.eqb c "."
      then match s' with
           | EmptyString => false
           | String d _ => is_digit d
           end
      else negb (is_alpha c)
  end.

Definition reserved : list string :=
  [ "if"; "else"; "repeat"; "while"; "function"; "for"; "next"; "break";
    "in"; "TRUE"; "FALSE"; "NULL"; "Inf"; "NaN"; "NA"; "NA_integer_";
    "NA_real_"; "NA_complex_"; "NA_character_" ]%string.

(** [make.names(s)] on one name: [X] is prepended if necessary, invalid
    characters become periods, a reserved word gets a period appended. *)
Definition make_name (s : string) : string :=
  let t := if needs_prefix s then String "X" s else s in
  let u := map_chars (fun c => if valid_char c then c else "."%char) t in
  if existsb (String.eqb u) reserved then (u ++ ".")%string else u.

(** [s %in% l] *)
Definition mem (s : string) (l : list string) : bool :=
  existsb (String.eqb s) l.

(** [sprintf("%d", n)] *)
Definition dec (n : nat) : string :=
  DecimalString.NilEmpty.string_of_uint (Nat.to_uint n).

(** [sprintf("%s%s%d", s, sep, cnt)] with the separator ["."] *)
Definition numbered (s : string) (cnt : nat) : string :=
  (s ++ "." ++ dec cnt)%string.

(** The inner loop of [make.unique]:
    [for (cnt = cnts[dp - 1]; cnt < n; cnt++)], trying [s.cnt] until a
    name is not in use.  [fuel] is [n - cnt], and [newx] is the name last
    tried, which is what the loop leaves behind when it runs out. *)
Fixpoint search (used : list string) (s : string) (fuel cnt : nat)
    (newx : string) : string * nat :=
  match fuel with
  | O => (newx, cnt)
  | S fuel' =>
      let cand := numbered s cnt in
      if mem cand used then search used s fuel' (S cnt) cand
      else (cand, cnt)
  end.

(** The counter kept for a name: the first number not tried yet, 1 at
    the start. *)
Fixpoint counter (s : string) (cnts : list (string * nat)) : nat :=
  match cnts with
  | [] => 1
  | (k, c) :: cnts' => if String.eqb k s then c else counter s cnts'
  end.

(** The names that occur in [names] and not in [seen], once each, in
    the order of their first occurrence. *)
Fixpoint firsts (seen names : list string) : list string :=
  match names with
  | [] => []
  | s :: rest =>
      if mem s seen then firsts seen rest else s :: firsts (s :: seen) rest
  end.

(** The outer loop of [make.unique] over a vector of [n] names.  [seen]
    holds the names met so far, [used] the names in use (every name of
    the vector, and every name made so far), [cnts] the counters.  A
    name met for the first time is kept; a repeated one is replaced by
    what the inner loop finds, which is then in use as well. *)
Fixpoint uniq (n : nat) (seen used : list string)
    (cnts : list (string * nat)) (newx : string) (names : list string)
  : list string :=
  match names with
  | [] => []
  | s :: rest =>
      if mem s seen then
        let found := search used s (n - counter s cnts) (counter s cnts)
                       newx in
        fst found
          :: uniq n seen (fst found :: used) ((s, S (snd found)) :: cnts)
               (fst found) rest
      else s :: uniq n (s :: seen) used cnts newx rest
  end.

(** [make.unique(names)] *)
Definition make_unique (names : list string) : list string :=
  uniq (length names) [] (firsts [] names) [] EmptyString names.

(** The elements of [l] whose flag is [b]. *)
Fixpoint pick (b : bool) (flags : list bool) (l : list string)
  : list string :=
  match flags, l with
  | f :: flags', x :: l' =>
      if Bool.eqb f b then x :: pick b flags' l' else pick b flags' l'
  | _, _ => []
  end.

(** The elements of [unchanged] at the places flagged [false] and those
    of [changed] at the places flagged [true], each list in its own
    order. *)
Fixpoint merge (flags : list bool) (unchanged changed : list string)
  : list string :=
  match flags with
  | [] => []
  | false :: flags' =>
      match unchanged with
      | x :: unchanged' => x :: merge flags' unchanged' changed
      | [] => merge flags' [] changed
      end
  | true :: flags' =>
      match changed with
      | x :: changed' => x :: merge flags' unchanged changed'
      | [] => merge flags' unchanged []
      end
  end.

(** [make.names(names, unique = TRUE)]:
    [names2 <- make.names(names)]
    [o <- order(names != names2)]
    [names2[o] <- make.unique(names2[o])]
    The order [o] lists the places of the names that came through
    unchanged before the places of the changed ones, each group in its
    own order; so repeated names are numbered in that order, and every
    name goes back to its place. *)
Definition make_names (names : list string) : list string :=
  let names2 := map make_name names in
  let flags := map (fun s => negb (String.eqb s (make_name s))) names in
  let kept := pick false flags names2 in
  let u := make_unique (kept ++ pick true flags names2) in
  merge flags (firstn (length kept) u) (skipn (length kept) u).

(** The parameters of [DataFrame] itself, as R spells them and as rpy2
    lets them be spelled. *)
Definition parameters : list string :=
  [ "row.names"; "check.names"; "stringsAsFactors"; "row_names";
    "check_names" ]%string.

(** A label that cannot name a column in the call
    [DataFrame(label = column, ..., row.names = ids)]: the empty label,
    and a label that R binds to one of the parameters of [DataFrame]. *)
Definition taken (s : string) : bool :=
  String.eqb s EmptyString || mem s parameters.

(** The column names that [DataFrame(...)] gives to columns passed under
    [labels] ([check.names = TRUE]): [make.names(labels, unique = TRUE)].
    With a label that is [taken] the call does not make a column of that
    name (the column is bound to the parameter, and is lost, read as row
    names, or refused); such a call is outside this embedding and gives
    [None]. *)
Definition check_names (labels : list string) : option (list string) :=
  if existsb taken labels then None else Some (make_names labels).

(** Every column has one value per row name. *)
Definition well_formed (f : DFrame) : Prop :=
  Forall (fun c => length (snd c) = length (rownames f)) (listData f).

Definition shape (m : rmatrix) : nat * nat :=
  match m with
  | RDense a => (nrows a, ncols a)
  | RdgC c => (c_ncols c, c_nrows c)
  end.

(** Entry [(i, j)] of an assay: feature [i], cell [j]. *)
Definition entry (m : rmatrix) (i j : nat) : option float64 :=
  match m with
  | RDense a => Sparse.dense_entry a i j
  | RdgC c => Sparse.dense_entry (Sparse.toarray c) j i
  end.

End R.

(** Section 3 of the notebook, last cell:
    [names(assays(adata)) <- new_name].  The definition is what the
    assignment does in R; the text stored under the cell still lists the
    assay as [X], word for word the output of cell 6. *)
Definition rename_matrix (x : SingleCellExperiment) (new_name : string)
  : option SingleCellExperiment :=
  assays' <- R.set_names [new_name] (assays x) ;;
  Some {| assays := assays'; rowData := rowData x; colData := colData x |}.

(** ** The bridge: anndata2ri under rpy2

    [%%R -o adata] and [r('...')] hand a SingleCellExperiment to Python
    ([r2py]); [%%R -i adata] hands an AnnData to R ([py2r]).  Both turn the
    matrix over, since R keeps features in rows and AnnData keeps them in
    columns.  Axis identifiers are taken to be pairwise distinct, as both
    libraries expect, and so are the names of the assays of an object
    and of the layers of a dataset, no layer being called [X].  Entries
    and column data cross the bridge as they are: a change of number type
    that a library may apply on the way is not part of this embedding. *)

Module Bridge.

(** [a.T] on a dense array. *)
Definition transpose (a : ndarray) : ndarray :=
  {| nrows := ncols a;
     ncols := nrows a;
     rows := map (fun j => map (fun r => nth j r pzero) (rows a))
                 (seq 0 (ncols a)) |}.

(** An assay seen from Python: a matrix is turned over, a [dgCMatrix]
    read row-wise is the csr matrix of its transpose. *)
Definition to_py (m : rmatrix) : pymatrix :=
  match m with
  | RDense a => PyDense (transpose a)
  | RdgC c => PyCsr c
  end.

(** [X.T] handed to R. *)
Definition to_r (x : pymatrix) : rmatrix :=
  match x with
  | PyDense a => RDense (transpose a)
  | PyCsr c => RdgC c
  end.

(** The assays after the first become layers, under their names. *)
Fixpoint to_layers (l : list (option string * rmatrix))
  : option (list (string * pymatrix)) :=
  match l with
  | [] => Some []
  | (Some n, m) :: l' => ls <- to_layers l' ;; Some ((n, to_py m) :: ls)
  | (None, _) :: _ => None
  end.

(** An R frame seen from Python:
    [pd.DataFrame({k: v for k, v in listData.items()}, index = rownames)].
    The columns go through a dict, so of several columns under one name
    the last is kept, at the place of the first. *)
Definition frame_to_py (f : DFrame) : DataFrame :=
  let cols := dict (listData f) in
  {| index := rownames f; index_name := None;
     columns := map fst cols; series := map snd cols |}.

(** R to Python: the assays are fetched by their names; the first
    becomes [X], the later ones become layers, [colData] becomes [obs]
    and [rowData] becomes [var].  An assay whose name is [NA] cannot be
    fetched.  An object without assays, or with assays that have no
    names at all, would arrive with [X = None], which [AnnData] above
    cannot hold: it is not converted here. *)
Definition r2py (x : SingleCellExperiment) : option AnnData :=
  match assays x with
  | (Some _, m) :: rest =>
      ls <- to_layers rest ;;
      Some {| X := to_py m; obs := frame_to_py (colData x);
              var := frame_to_py (rowData x); layers := ls |}
  | _ => None
  end.

(** A frame handed to R: with [args = {k: v for k, v in df.items()}],
    the call [DataFrame(row.names = df.index, **args)].  The columns go
    through a dict first; R then names them ([R.check_names]) and takes
    the index for row names, whose name, if it has one, stays behind. *)
Definition frame_to_r (df : DataFrame) : option DFrame :=
  let args := dict (Pandas.items df) in
  labels <- R.check_names (map fst args) ;;
  Some {| rownames := index df;
          listData := combine labels (map snd args) |}.

(** Python to R: [X] becomes the assay named [X], followed by the
    layers; [obs] becomes [colData] and [var] becomes [rowData]. *)
Definition py2r (adata : AnnData) : option SingleCellExperiment :=
  cd <- frame_to_r (obs adata) ;;
  rd <- frame_to_r (var adata) ;;
  Some {| assays := (Some "X"%string, to_r (X adata))
                      :: map (fun l => (Some (fst l), to_r (snd l)))
                             (layers adata);
          rowData := rd; colData := cd |}.

End Bridge.

(** ** Vocabulary of the statements *)

(** The column labelled [name], of a frame in which exactly one column
    carries that label. *)
Definition only_column (df : DataFrame) (name : string)
  : option (list cell) :=
  match Pandas.labelled name (columns df) (series df) with
  | [c] => Some c
  | _ => None
  end.

(** A string made of white space only. *)
Fixpoint all_space (s : string) : bool :=
  match s with
  | EmptyString => true
  | String c s' => PyStr.isspace c && all_space s'
  end.

(** A string that does not start with white space. *)
Definition head_ok (s : string) : bool :=
  match s with
  | EmptyString => true
  | String c _ => negb (PyStr.isspace c)
  end.

(** A string that does not end with white space. *)
Fixpoint last_ok (s : string) : bool :=
  match s with
  | EmptyString => true
  | String c EmptyString => negb (PyStr.isspace c)
  | String _ s' => last_ok s'
  end.

(** What normalisation does to one character of a trimmed name: a space
    or a period becomes an underscore, any other character is lowered. *)
Definition norm_char (c : ascii) : ascii :=
  if Ascii.eqb c " " || Ascii.eqb c "." then "_"%char
  else PyStr.lower_char c.

(** [t] is [s] trimmed, lowered, and with spaces and periods replaced:
    [s] is a core between two runs of white space, the core neither starts
    nor ends with white space, and [t] is the core character by character
    through [norm_char]. *)
Definition Normalized (s t : string) : Prop :=
  exists l core r : string,
    s = (l ++ core ++ r)%string /\
    all_space l = true /\ all_space r = true /\
    head_ok core = true /\ last_ok core = true /\
    t = map_chars norm_char core.

(** An assay is rectangular when its dense form is; a compressed matrix
    is laid out by its record. *)
Definition r_rectangular (m : rmatrix) : Prop :=
  match m with
  | RDense a => Sparse.rectangular a
  | RdgC _ => True
  end.


(** ** Small datasets for the examples *)

Module Sample.

Local Open Scope string_scope.

Definition one : float64 := S754_finite false 4503599627370496 (-52).
Definition two : float64 := S754_finite false 4503599627370496 (-51).

(** Two cells, three genes. *)
Definition counts : ndarray :=
  {| nrows := 2; ncols := 3;
     rows := [[one; pzero; two]; [pzero; two; pzero]] |}.

(** The observation labels the bridge hands to Python (cell 5 of the
    notebook). *)
Definition obs_labels : list string :=
  [ "Source Name"; "cell line"; "cell type"; "single cell well quality";
    "genotype"; "phenotype"; "strain"; "spike-in addition"; "block" ].

Definition cells : DataFrame :=
  {| index := [CStr "SLX-9555.N701_S502"; CStr "SLX-9555.N701_S503"];
     index_name := None;
     columns := obs_labels;
     series := map (fun l => [CStr l; CStr l]) obs_labels |}.

(** The observation labels [read_loom] delivers (cell 3 of the
    notebook). *)
Definition obs_labels_loom : list string :=
  [ "Source.Name"; "block"; "cell.line"; "cell.type"; "colnames";
    "genotype"; "phenotype"; "single.cell.well.quality";
    "spike.in.addition"; "strain" ].

Definition cells_loom : DataFrame :=
  {| index := [CStr "0"; CStr "1"];
     index_name := None;
     columns := obs_labels_loom;
     series := map (fun l => [CStr l; CStr l]) obs_labels_loom |}.

(** The variable frame as [read_loom] leaves it: a positional index, the
    gene identifiers in the column [rownames]. *)
Definition genes_loom : DataFrame :=
  {| index := [CStr "0"; CStr "1"; CStr "2"];
     index_name := None;
     columns := ["ENSEMBL"; "Length"; "SEQNAME"; "SYMBOL"; "rownames"];
     series := [ [CStr "ENSMUSG00000102693"; CStr "ENSMUSG00000064842";
                  CStr "ENSMUSG00000095742"];
                 [CNum one; CNum two; CNum two];
                 [CStr "1"; CStr "1"; CStr "JH584295.1"];
                 [CStr "4933401J01Rik"; CStr "Gm26206"; CStr "CAAA01147332.1"];
                 [CStr "4933401J01Rik"; CStr "Gm26206"; CStr "CAAA01147332.1"]
               ] |}.


(** The variable frame as the bridge delivers it. *)
Definition genes : DataFrame :=
  {| index := [CStr "ENSMUSG00000102693"; CStr "ENSMUSG00000064842";
               CStr "ENSMUSG00000095742"];
     index_name := None;
     columns := ["Length"];
     series := [[CNum one; CNum two; CNum two]] |}.

Definition adata_loom : AnnData :=
  {| X := PyDense counts; obs := cells_loom; var := genes_loom;
     layers := [] |}.


Definition adata : AnnData :=
  {| X := PyDense counts; obs := cells; var := genes; layers := [] |}.

(** A frame as R holds it: the index for row names, each column under
    its label. *)
Definition r_frame (df : DataFrame) : DFrame :=
  {| rownames := index df; listData := Pandas.items df |}.

(** The same dataset on the R side: genes in rows, cells in columns. *)
Definition sce : SingleCellExperiment :=
  {| assays := [(Some "X", RDense (Bridge.transpose counts))];
     rowData := r_frame genes; colData := r_frame cells |}.


End Sample.

(** ** Further vocabulary: labels, csr layout, R names, feature names *)

(** Every character of [s] passes [p]. *)
Fixpoint chars_all (p : ascii -> bool) (s : string) : bool :=
  match s with
  | EmptyString => true
  | String c s' => p c && chars_all p s'
  end.

(** A character that normalisation leaves alone: neither a space nor a
    period, and already in lower case. *)
Definition normal_char (c : ascii) : bool :=
  negb (Ascii.eqb c " ") && negb (Ascii.eqb c ".")
  && Ascii.eqb (PyStr.lower_char c) c.


(** A one-cell, one-gene dataset with the given observation labels. *)
Definition with_obs_labels (labels : list string) : AnnData :=
  {| X := PyDense {| nrows := 1; ncols := 1; rows := [[pzero]] |};
     obs := {| index := [CStr "c"]; index_name := None;
               columns := labels;
               series := map (fun l => [CStr l]) labels |};
     var := {| index := [CStr "g"]; index_name := None;
               columns := []; series := [] |};
     layers := [] |}.

Module Csr.

(** The consecutive pairs [(indptr[i], indptr[i+1])]. *)
Fixpoint pairs (ptr : list nat) : list (nat * nat) :=
  match ptr with
  | lo :: ((hi :: _) as ptr') => (lo, hi) :: pairs ptr'
  | _ => []
  end.

(** The stored entries of each row: column number and value. *)
Definition row_slices (c : compressed) : list (list (nat * float64)) :=
  map (fun p => combine (Sparse.slice (fst p) (snd p) (indices c))
                        (Sparse.slice (fst p) (snd p) (data c)))
      (pairs (indptr c)).

(** Column numbers strictly increasing, none below [lo]. *)
Fixpoint ascending (lo : nat) (js : list nat) : bool :=
  match js with
  | [] => true
  | j :: js' => (lo <=? j) && ascending (S j) js'
  end.

Fixpoint nondecreasing (l : list nat) : bool :=
  match l with
  | a :: ((b :: _) as l') => (a <=? b) && nondecreasing l'
  | _ => true
  end.

(** The entries of one row are in order, inside the row, and none is a
    stored zero. *)
Definition row_ok (m : nat) (e : list (nat * float64)) : bool :=
  ascending 0 (map fst e)
  && forallb (fun j => j <? m) (map fst e)
  && forallb Sparse.is_nonzero (map snd e).

(** scipy's canonical csr layout: one pointer per row and one more, from
    0 up to the number of stored entries, never decreasing; as many
    column numbers as values; in each row the column numbers increase,
    stay below the number of columns, and no zero is stored. *)
Definition canonical (c : compressed) : bool :=
  (length (indptr c) =? S (c_nrows c))
  && (hd 1 (indptr c) =? 0)
  && (last (indptr c) 0 =? length (data c))
  && (length (indices c) =? length (data c))
  && nondecreasing (indptr c)
  && forallb (row_ok (c_ncols c)) (row_slices c).

(** The number of entries of a dense array that are not zero. *)
Definition count_nonzero (a : ndarray) : nat :=
  list_sum (map (fun r => length (filter Sparse.is_nonzero r)) (rows a)).



End Csr.





(** The shape invariants on the R side: the object has a first assay,
    with one row per row of [rowData] and one column per row of
    [colData], and both frames are well formed. *)
Definition r_consistent (x : SingleCellExperiment) : Prop :=
  exists o m rest,
    assays x = (o, m) :: rest /\
    length (rownames (rowData x)) = fst (R.shape m) /\
    length (rownames (colData x)) = snd (R.shape m) /\
    R.well_formed (rowData x) /\
    R.well_formed (colData x).

(** A syntactic R name: it needs no prefix, holds valid characters only
    and is no reserved word. *)
Definition syntactic (s : string) : bool :=
  negb (R.needs_prefix s) && chars_all R.valid_char s
  && negb (existsb (String.eqb s) R.reserved).

(** The last character of a string. *)
Fixpoint last_char (s : string) : option ascii :=
  match s with
  | EmptyString => None
  | String c EmptyString => Some c
  | String _ s' => last_char s'
  end.

(** The number of names of [names] that repeat an earlier one or a name
    of [seen]. *)
Fixpoint repeats (seen names : list string) : nat :=
  match names with
  | [] => 0
  | s :: rest =>
      if R.mem s seen then S (repeats seen rest)
      else repeats (s :: seen) rest
  end.

(** What [make.names] does to one character: an invalid one becomes a
    period. *)
Definition translated (c : ascii) : ascii :=
  if R.valid_char c then c else "."%char.

(** ** Cell 2 of the notebook: feature names

    [rownames(sce.416b) <- uniquifyFeatureNames(rowData(sce.416b)$ENSEMBL,
                                               rowData(sce.416b)$SYMBOL)] *)

Module Scater.

(** [names[is.na(names)] <- ID[is.na(names)]], position by position. *)
Definition fill (ID : list string) (names : list (option string))
  : list string :=
  map (fun p => match snd p with Some n => n | None => fst p end)
      (combine ID names).

(** [x %in% names[duplicated(names)]]: the value occurs more than once. *)
Definition repeated (names : list string) (x : string) : bool :=
  1 <? count_occ string_dec names x.

(** [uniquifyFeatureNames(ID, names)]: a missing name is replaced by the
    identifier; then every name that occurs more than once gets an
    underscore and the identifier appended.  Vectors of different
    lengths are an error. *)
Definition uniquifyFeatureNames (ID : list string)
    (names : list (option string)) : option (list string) :=
  if length ID =? length names then
    let filled := fill ID names in
    Some (map (fun p => if repeated filled (snd p)
                        then (snd p ++ "_" ++ fst p)%string
                        else snd p)
              (combine ID filled))
  else None.

End Scater.

(** * Properties *)

(** ** Strings *)

Section StringFacts.

Import PyStr.

Lemma map_chars_ext (f g : ascii -> ascii) (s : string) :
  (forall c, f c = g c) -> map_chars f s = map_chars g s.
Proof.
  intros E; induction s as [|c s IH]; simpl; [reflexivity|].
  now rewrite E, IH.
Qed.

Lemma map_chars_compose (f g : ascii -> ascii) (s : string) :
  map_chars f (map_chars g s) = map_chars (fun c => f (g c)) s.
Proof.
  induction s as [|c s IH]; simpl; [reflexivity|]. now rewrite IH.
Qed.

(** Case analysis on all 256 characters. *)
Ltac by_cases_on c :=
  destruct c as [[] [] [] [] [] [] [] []]; vm_compute; reflexivity.

Lemma three_passes_char (c : ascii) :
  (if Ascii.eqb (if Ascii.eqb (lower_char c) " " then "_"%char
                 else lower_char c) "."
   then "_"%char
   else if Ascii.eqb (lower_char c) " " then "_"%char else lower_char c)
  = norm_char c.
Proof. by_cases_on c. Qed.

Lemma norm_char_idem (c : ascii) : norm_char (norm_char c) = norm_char c.
Proof. by_cases_on c. Qed.

Lemma norm_char_not_space (c : ascii) :
  isspace c = false -> isspace (norm_char c) = false.
Proof.
  destruct c as [[] [] [] [] [] [] [] []]; vm_compute;
    first [reflexivity | discriminate].
Qed.

(** The three passes after [strip] amount to one pass of [norm_char]. *)
Lemma passes_after_strip (s : string) :
  replace "." "_" (replace " " "_" (lower s)) = map_chars norm_char s.
Proof.
  unfold replace, lower. rewrite !map_chars_compose.
  apply map_chars_ext, three_passes_char.
Qed.

Lemma lstrip_split (s : string) :
  exists l, s = (l ++ lstrip s)%string /\ all_space l = true /\
            head_ok (lstrip s) = true.
Proof.
  induction s as [|c s (l & E & Hl & Hh)]; simpl.
  - exists EmptyString. now repeat split.
  - destruct (isspace c) eqn:Hc.
    + exists (String c l). simpl. rewrite Hc, Hl. repeat split; trivial.
      now rewrite <- E.
    + exists EmptyString. simpl. now rewrite Hc.
Qed.

Lemma rstrip_split (s : string) :
  exists r, s = (rstrip s ++ r)%string /\ all_space r = true /\
            last_ok (rstrip s) = true.
Proof.
  induction s as [|c s (r & E & Hr & Hl)]; simpl.
  - exists EmptyString. now repeat split.
  - destruct (rstrip s) as [|d t] eqn:Rs.
    + destruct (isspace c) eqn:Hc.
      * exists (String c r). simpl in *. rewrite Hc, Hr.
        repeat split; trivial. now rewrite <- E.
      * exists r. simpl in *. rewrite Hc. repeat split; trivial.
        now rewrite <- E.
    + exists r. repeat split; trivial. simpl in E |- *. now rewrite <- E.
Qed.

Lemma rstrip_head_ok (s : string) :
  head_ok s = true -> head_ok (rstrip s) = true.
Proof.
  destruct s as [|c s]; simpl; [trivial|]. intros Hc.
  destruct (rstrip s); simpl; trivial.
  apply negb_true_iff in Hc. rewrite Hc. simpl. now rewrite Hc.
Qed.

Lemma lstrip_fixed (s : string) : head_ok s = true -> lstrip s = s.
Proof.
  destruct s as [|c s]; simpl; [trivial|]. intros Hc.
  apply negb_true_iff in Hc. now rewrite Hc.
Qed.

Lemma rstrip_fixed (s : string) : last_ok s = true -> rstrip s = s.
Proof.
  induction s as [|c s IH]; simpl; [trivial|].
  destruct s as [|d t].
  - simpl. intros Hc. apply negb_true_iff in Hc. now rewrite Hc.
  - intros H. rewrite (IH H). reflexivity.
Qed.

Lemma strip_fixed (s : string) :
  head_ok s = true -> last_ok s = true -> strip s = s.
Proof.
  intros Hh Hl. unfold strip. rewrite (lstrip_fixed s Hh).
  now apply rstrip_fixed.
Qed.

Lemma head_ok_norm (s : string) :
  head_ok s = true -> head_ok (map_chars norm_char s) = true.
Proof.
  destruct s as [|c s]; simpl; [trivial|]. intros Hc.
  apply negb_true_iff in Hc. apply negb_true_iff.
  now apply norm_char_not_space.
Qed.

Lemma last_ok_norm (s : string) :
  last_ok s = true -> last_ok (map_chars norm_char s) = true.
Proof.
  induction s as [|c s IH]; simpl; [trivial|].
  destruct s as [|d t].
  - simpl. intros Hc. apply negb_true_iff in Hc. apply negb_true_iff.
    now apply norm_char_not_space.
  - intros H. specialize (IH H). simpl in *. exact IH.
Qed.

(** [strip] returns the core of the name, between two runs of white
    space. *)
Lemma strip_split (s : string) :
  exists l r, s = (l ++ strip s ++ r)%string /\
              all_space l = true /\ all_space r = true /\
              head_ok (strip s) = true /\ last_ok (strip s) = true.
Proof.
  destruct (lstrip_split s) as (l & El & Hl & Hh).
  destruct (rstrip_split (lstrip s)) as (r & Er & Hr & Hlast).
  exists l, r. unfold strip. repeat split; trivial.
  - now rewrite <- Er.
  - now apply rstrip_head_ok.
Qed.

(** One name: the four passes of the cell compute the normal form the
    vocabulary describes. *)
Lemma normalize_name_Normalized (s : string) :
  Normalized s (normalize_name s).
Proof.
  destruct (strip_split s) as (l & r & E & Hl & Hr & Hh & Hlast).
  exists l, (strip s), r. repeat split; trivial.
  unfold normalize_name. apply passes_after_strip.
Qed.

Lemma normalize_name_idem (s : string) :
  normalize_name (normalize_name s) = normalize_name s.
Proof.
  destruct (strip_split s) as (l & r & _ & _ & _ & Hh & Hlast).
  assert (E : normalize_name s = map_chars norm_char (strip s))
    by apply passes_after_strip.
  rewrite E. unfold normalize_name. rewrite passes_after_strip.
  rewrite (strip_fixed _ (head_ok_norm _ Hh) (last_ok_norm _ Hlast)).
  rewrite map_chars_compose. apply map_chars_ext, norm_char_idem.
Qed.

Lemma chars_all_map (p : ascii -> bool) (f : ascii -> ascii) (s : string) :
  chars_all p (map_chars f s) = chars_all (fun c => p (f c)) s.
Proof.
  induction s as [|c s IH]; simpl; [reflexivity|]. now rewrite IH.
Qed.

Lemma chars_all_true (p : ascii -> bool) (s : string) :
  (forall c, p c = true) -> chars_all p s = true.
Proof.
  intros H. induction s as [|c s IH]; simpl; [reflexivity|].
  now rewrite H, IH.
Qed.

Lemma append_cancel (a b c : string) :
  (a ++ b = a ++ c)%string -> b = c.
Proof.
  induction a as [|x a IH]; simpl; [trivial|]. intros [= E]. now apply IH.
Qed.

End StringFacts.

Section StripUnique.

Import PyStr.

Lemma lstrip_spaces (l x : string) :
  all_space l = true -> lstrip (l ++ x) = lstrip x.
Proof.
  induction l as [|c l IH]; simpl; [trivial|].
  intros H. apply andb_true_iff in H as [Hc Hl]. rewrite Hc. auto.
Qed.

Lemma rstrip_spaces (r : string) :
  all_space r = true -> rstrip r = EmptyString.
Proof.
  induction r as [|c r IH]; simpl; [trivial|].
  intros H. apply andb_true_iff in H as [Hc Hr].
  rewrite (IH Hr). now rewrite Hc.
Qed.

Lemma rstrip_core (core r : string) :
  last_ok core = true -> all_space r = true -> rstrip (core ++ r) = core.
Proof.
  intros Hlast Hr. induction core as [|c core IH].
  - simpl. now apply rstrip_spaces.
  - destruct core as [|d t].
    + simpl in *. rewrite (rstrip_spaces r Hr).
      apply negb_true_iff in Hlast. now rewrite Hlast.
    + specialize (IH Hlast). simpl in IH |- *. simpl in IH.
      now rewrite IH.
Qed.

Lemma lstrip_core (core r : string) :
  head_ok core = true -> all_space r = true ->
  rstrip (lstrip (core ++ r)) = rstrip (core ++ r).
Proof.
  intros Hh Hr. destruct core as [|c core].
  - simpl. rewrite (rstrip_spaces r Hr).
    assert (E : lstrip r = EmptyString).
    { clear Hh. induction r as [|c r IH]; simpl; [trivial|].
      simpl in Hr. apply andb_true_iff in Hr as [Hc Hr'].
      rewrite Hc. auto. }
    now rewrite E.
  - simpl in Hh. apply negb_true_iff in Hh.
    change ((String c core ++ r)%string) with (String c (core ++ r)).
    cbn [lstrip]. now rewrite Hh.
Qed.

(** The core of a name is what [strip] returns, whatever the white space
    around it. *)
Lemma strip_unique (l core r : string) :
  all_space l = true -> all_space r = true ->
  head_ok core = true -> last_ok core = true ->
  strip (l ++ core ++ r) = core.
Proof.
  intros Hl Hr Hh Hlast. unfold strip.
  rewrite (lstrip_spaces l _ Hl), (lstrip_core core r Hh Hr).
  now apply rstrip_core.
Qed.

Lemma Normalized_unique (s t : string) :
  Normalized s t -> t = normalize_name s.
Proof.
  intros (l & core & r & -> & Hl & Hr & Hh & Hlast & ->).
  unfold normalize_name. rewrite passes_after_strip.
  now rewrite (strip_unique l core r Hl Hr Hh Hlast).
Qed.

Lemma Normalized_iff (s t : string) :
  Normalized s t <-> t = normalize_name s.
Proof.
  split; [apply Normalized_unique|].
  intros ->. apply normalize_name_Normalized.
Qed.

End StripUnique.

(** ** Column-name normalisation on a dataset *)

Lemma normalize_runs (adata : AnnData) :
  normalize_observation_attribute_names adata =
  Some {| X := X adata;
          obs := {| index := index (obs adata);
                    index_name := index_name (obs adata);
                    columns := map normalize_name (columns (obs adata));
                    series := series (obs adata) |};
          var := var adata;
          layers := layers adata |}.
Proof.
  unfold normalize_observation_attribute_names, Pandas.set_columns.
  now rewrite length_map, Nat.eqb_refl.
Qed.

Example normalize_name_source_name :
  normalize_name "Source.Name" = "source_name"%string.
Proof. reflexivity. Qed.

Example normalize_name_padded :
  normalize_name "  Cell Type.v2 " = "cell_type_v2"%string.
Proof. reflexivity. Qed.

(** C1.  [normalize_observation_attribute_names] always returns, and the
    label it puts at each position is exactly the label that was there
    trimmed of leading and trailing white space, lowered, with every space
    and every period replaced by an underscore; a label ["Source.Name"]
    becomes ["source_name"]. *)
Theorem normalize_observation_attribute_names_exact (adata : AnnData) :
  exists adata',
    normalize_observation_attribute_names adata = Some adata' /\
    length (columns (obs adata')) = length (columns (obs adata)) /\
    (forall k s, nth_error (columns (obs adata)) k = Some s ->
       forall t, Normalized s t <->
                 nth_error (columns (obs adata')) k = Some t) /\
    (forall k, nth_error (columns (obs adata)) k = Some "Source.Name"%string ->
       nth_error (columns (obs adata')) k = Some "source_name"%string).
Proof.
  eexists. split; [apply normalize_runs|]. simpl.
  split; [apply length_map|]. split.
  - intros k s Hk t. rewrite nth_error_map, Hk. simpl.
    rewrite Normalized_iff. split; [now intros ->|]. now intros [= ->].
  - intros k Hk. now rewrite nth_error_map, Hk.
Qed.

Lemma normalize_observation_attribute_names_exact_witness :
  exists adata',
    normalize_observation_attribute_names Sample.adata_loom = Some adata' /\
    nth_error (columns (obs adata')) 0 = Some "source_name"%string /\
    nth_error (columns (obs adata')) 7 =
      Some "single_cell_well_quality"%string.
Proof.
  destruct (normalize_observation_attribute_names_exact Sample.adata_loom)
    as (adata' & Hrun & _ & Hall & Hsrc).
  exists adata'. split; [exact Hrun|]. split.
  - apply (Hsrc 0). reflexivity.
  - apply (Hall 7 "single.cell.well.quality"%string eq_refl).
    exists EmptyString, "single.cell.well.quality"%string, EmptyString.
    now repeat split.
Defined.

(** C2.  Normalising twice is normalising once: the second run returns
    the dataset it was given. *)
Theorem normalize_observation_attribute_names_idempotent (adata : AnnData) :
  exists adata',
    normalize_observation_attribute_names adata = Some adata' /\
    normalize_observation_attribute_names adata' = Some adata'.
Proof.
  eexists. split; [apply normalize_runs|].
  rewrite normalize_runs. simpl. rewrite map_map.
  do 3 f_equal. apply map_ext, normalize_name_idem.
Qed.

(** C8.  Normalisation touches the observation labels and nothing else:
    the observation columns keep their values and their order, the label
    at each position is the normal form of the label that was there, and
    the matrix, the layers, the variable frame and both identifier
    sequences are those of the input. *)
Theorem normalize_observation_attribute_names_frame (adata : AnnData) :
  exists adata',
    normalize_observation_attribute_names adata = Some adata' /\
    series (obs adata') = series (obs adata) /\
    (forall k, nth_error (columns (obs adata')) k =
               option_map normalize_name (nth_error (columns (obs adata)) k)) /\
    index (obs adata') = index (obs adata) /\
    index_name (obs adata') = index_name (obs adata) /\
    X adata' = X adata /\
    layers adata' = layers adata /\
    var adata' = var adata.
Proof.
  eexists. split; [apply normalize_runs|]. simpl.
  repeat split. intros k. apply nth_error_map.
Qed.

(** ** Moving the gene identifiers into the index *)

Section VariableIdentifiers.

Local Open Scope string_scope.







End VariableIdentifiers.


(** After the fix the identifiers are still readable as the column
    [gene_ids]: the column is renamed and copied into the index, not
    taken out of the frame. *)
Example gene_ids_column_kept :
  option_map (fun a => only_column (var a) "gene_ids")
    (normalize_variable_identifiers Sample.adata_loom)
  = Some (Some [CStr "4933401J01Rik"; CStr "Gm26206";
                CStr "CAAA01147332.1"]%string).
Proof. reflexivity. Qed.

(** ** Renaming the assay *)

Lemma set_names_one {A : Type} (v : string) (o : option string) (a : A)
    (l : list (option string * A)) :
  R.set_names [v] ((o, a) :: l) =
  Some ((Some v, a) :: map (fun p => (None, snd p)) l).
Proof. reflexivity. Qed.

Lemma rename_matrix_runs (x : SingleCellExperiment) (new_name : string)
    (o : option string) (m : rmatrix) (rest : list (option string * rmatrix)) :
  assays x = (o, m) :: rest ->
  rename_matrix x new_name =
  Some {| assays := (Some new_name, m) :: map (fun p => (None, snd p)) rest;
          rowData := rowData x; colData := colData x |}.
Proof.
  intros E. unfold rename_matrix. now rewrite E, set_names_one.
Qed.

(** C5.  On a dataset that has a primary matrix, renaming it to
    ["counts"] returns a dataset whose first assay is tagged exactly
    ["counts"], with the same matrices in the same order and the same row
    and column frames (identifiers and attributes). *)
Theorem rename_matrix_counts (x : SingleCellExperiment) :
  assays x <> [] ->
  exists x',
    rename_matrix x "counts" = Some x' /\
    option_map fst (hd_error (assays x')) = Some (Some "counts"%string) /\
    map snd (assays x') = map snd (assays x) /\
    rowData x' = rowData x /\
    colData x' = colData x.
Proof.
  intros Hne. destruct (assays x) as [|[o m] rest] eqn:E; [congruence|].
  eexists. split; [apply (rename_matrix_runs x _ o m rest E)|].
  cbn [assays rowData colData hd_error option_map fst map snd].
  repeat split. now rewrite map_map, map_ext with (g := snd).
Qed.

Lemma rename_matrix_counts_witness :
  exists x',
    rename_matrix Sample.sce "counts" = Some x' /\
    option_map fst (hd_error (assays x')) = Some (Some "counts"%string) /\
    map snd (assays x') = map snd (assays Sample.sce) /\
    rowData x' = rowData Sample.sce /\
    colData x' = colData Sample.sce.
Proof.
  apply (rename_matrix_counts Sample.sce). discriminate.
Defined.

(** ** Sparse storage and back *)

Section SparseFacts.

Import Sparse.

Lemma stored_value (x : float64) :
  is_nonzero x = true -> fadd pzero x = x /\ drop_zero_sign x = x.
Proof. destruct x as [s|s| |s m e]; simpl; intros H; try discriminate; auto. Qed.

Lemma skipped_value (x : float64) :
  is_nonzero x = false -> drop_zero_sign x = pzero.
Proof.
  destruct x as [s|s| |s m e]; simpl; intros H; trivial; try discriminate.
  - now destruct s.
  - now destruct s.
Qed.

Lemma add_at_middle (done : list float64) (y x : float64)
    (rest : list float64) :
  add_at (length done) x (done ++ y :: rest) = done ++ fadd y x :: rest.
Proof. induction done as [|d done IH]; simpl; [reflexivity|]. now rewrite IH. Qed.

(** Scattering the stored entries of a row over zeros gives the row back,
    zeros unsigned. *)
Lemma scatter_row (r done : list float64) :
  scatter (done ++ repeat pzero (length r))
          (map fst (row_entries (length done) r))
          (map snd (row_entries (length done) r))
  = done ++ map drop_zero_sign r.
Proof.
  revert done. induction r as [|x r IH]; intros done.
  - simpl. destruct done; reflexivity.
  - cbn [row_entries length repeat map].
    destruct (is_nonzero x) eqn:Hx.
    + destruct (stored_value x Hx) as [Ha Hd].
      cbn [map fst snd scatter]. rewrite add_at_middle, Ha, Hd.
      specialize (IH (done ++ [x])).
      rewrite length_app, Nat.add_1_r, <- !app_assoc in IH. exact IH.
    + rewrite (skipped_value x Hx).
      specialize (IH (done ++ [pzero])).
      rewrite length_app, Nat.add_1_r, <- !app_assoc in IH. exact IH.
Qed.

Lemma scatter_row_entries (r : list float64) :
  scatter (repeat pzero (length r))
          (map fst (row_entries 0 r)) (map snd (row_entries 0 r))
  = map drop_zero_sign r.
Proof. exact (scatter_row r []). Qed.

Lemma slice_middle {A : Type} (pre mid post : list A) :
  slice (length pre) (length pre + length mid) (pre ++ mid ++ post) = mid.
Proof.
  unfold slice. rewrite skipn_app, skipn_all, Nat.sub_diag. simpl.
  replace (length pre + length mid - length pre) with (length mid + 0) by lia.
  rewrite firstn_app_2. simpl. apply app_nil_r.
Qed.

Lemma row_pointers_head (off : nat) (rs : list (list float64)) :
  exists p, row_pointers off rs = off :: p.
Proof. destruct rs; simpl; eauto. Qed.

(** The outer loop rebuilds the rows one after the other. *)
Lemma dense_rows_of_entries (m : nat) (rs : list (list float64))
    (pre : list (nat * float64)) :
  Forall (fun r => length r = m) rs ->
  dense_rows m (row_pointers (length pre) rs)
    (map fst (pre ++ concat (map (row_entries 0) rs)))
    (map snd (pre ++ concat (map (row_entries 0) rs)))
  = map (map drop_zero_sign) rs.
Proof.
  intros Hm. revert pre. induction Hm as [|r rs Hr _ IH]; intros pre.
  - reflexivity.
  - cbn [row_pointers map concat].
    destruct (row_pointers_head (length pre + length (row_entries 0 r)) rs)
      as [p Ep].
    specialize (IH (pre ++ row_entries 0 r)).
    rewrite length_app, <- app_assoc in IH. rewrite Ep in IH |- *.
    cbn [dense_rows]. f_equal; [|exact IH].
    rewrite !map_app.
    rewrite <- (length_map fst pre) at 1 2.
    rewrite <- (length_map fst (row_entries 0 r)) at 1.
    rewrite slice_middle.
    rewrite <- (length_map snd pre), <- (length_map snd (row_entries 0 r)).
    rewrite slice_middle. rewrite <- Hr. apply scatter_row_entries.
Qed.

(** A dense array taken to csr storage and back: every entry is there
    again, a zero as the positive zero. *)
Lemma toarray_csr_of_dense (a : ndarray) :
  rectangular a ->
  toarray (csr_of_dense a) =
  {| nrows := nrows a; ncols := ncols a;
     rows := map (map drop_zero_sign) (rows a) |}.
Proof.
  intros [_ Hcols]. unfold toarray, csr_of_dense.
  cbn [c_nrows c_ncols indptr indices data]. f_equal.
  exact (dense_rows_of_entries (ncols a) (rows a) [] Hcols).
Qed.

Lemma dense_entry_map (f : float64 -> float64) (a : ndarray) (i j : nat) :
  dense_entry {| nrows := nrows a; ncols := ncols a;
                 rows := map (map f) (rows a) |} i j
  = option_map f (dense_entry a i j).
Proof.
  unfold dense_entry. cbn [rows]. rewrite nth_error_map.
  destruct (nth_error (rows a) i) as [r|]; simpl; [|reflexivity].
  apply nth_error_map.
Qed.

End SparseFacts.

(** Both zeros compress to the same csr matrix: the sign of a zero is
    not stored, so no way back to dense can tell them apart. *)
Example csr_matrix_forgets_zero_sign :
  Sparse.csr_matrix
    (PyDense {| nrows := 1; ncols := 1; rows := [[nzero]] |}) =
  Sparse.csr_matrix
    (PyDense {| nrows := 1; ncols := 1; rows := [[pzero]] |}).
Proof. reflexivity. Qed.


(** ** The names R gives *)

Section RNames.

Import R.

Lemma translated_valid (c : ascii) : valid_char (translated c) = true.
Proof. destruct c as [[] [] [] [] [] [] [] []]; vm_compute; reflexivity. Qed.

Lemma translated_fixed (c : ascii) :
  valid_char c = true -> translated c = c.
Proof. unfold translated. now intros ->. Qed.

Lemma translated_not_digit (c : ascii) :
  is_digit c = false -> is_digit (translated c) = false.
Proof.
  destruct c as [[] [] [] [] [] [] [] []]; vm_compute;
    first [reflexivity | discriminate].
Qed.

Lemma alpha_valid (c : ascii) :
  is_alpha c = true -> valid_char c = true /\ Ascii.eqb c "." = false.
Proof.
  destruct c as [[] [] [] [] [] [] [] []]; vm_compute;
    first [split; reflexivity | discriminate].
Qed.

Lemma needs_prefix_translated (s : string) :
  needs_prefix s = false -> needs_prefix (map_chars translated s) = false.
Proof.
  destruct s as [|c s]; [discriminate|]. cbn [needs_prefix map_chars].
  destruct (Ascii.eqb_spec c ".") as [->|Hc].
  - change (translated ".") with "."%char. cbn [Ascii.eqb Bool.eqb].
    destruct s as [|d s]; [reflexivity|]. cbn [map_chars].
    apply translated_not_digit.
  - intros H. apply negb_false_iff in H.
    destruct (alpha_valid c H) as [Hv Hd].
    rewrite (translated_fixed c Hv), Hd. now rewrite H.
Qed.

Lemma needs_prefix_dot (u : string) :
  needs_prefix u = false -> needs_prefix (u ++ ".") = false.
Proof.
  destruct u as [|c u]; [discriminate|].
  cbn [needs_prefix append]. destruct (Ascii.eqb c "."); [|trivial].
  destruct u as [|d u]; trivial.
Qed.

Lemma chars_all_app (p : ascii -> bool) (a b : string) :
  chars_all p (a ++ b) = chars_all p a && chars_all p b.
Proof.
  induction a as [|c a IH]; simpl; [reflexivity|].
  now rewrite IH, andb_assoc.
Qed.

Lemma map_chars_valid (s : string) :
  chars_all valid_char s = true -> map_chars translated s = s.
Proof.
  induction s as [|c s IH]; simpl; [reflexivity|]. intros H.
  apply andb_true_iff in H as [Hc Hs].
  now rewrite (translated_fixed c Hc), IH.
Qed.

Lemma ends_with_dot_differs (u r : string) :
  (forall v, r <> (v ++ ".")%string) -> String.eqb (u ++ ".") r = false.
Proof.
  intros H. apply String.eqb_neq. intros E. now apply (H u).
Qed.

Lemma no_trailing_dot (r : string) (c : ascii) (w : string) :
  r = (w ++ String c EmptyString)%string -> c <> "."%char ->
  forall v, r <> (v ++ ".")%string.
Proof.
  intros -> Hc v. revert v. induction w as [|x w IH]; intros v E.
  - destruct v as [|y v]; simpl in E.
    + injection E as E. now apply Hc.
    + injection E as _ E. now destruct v.
  - destruct v as [|y v]; simpl in E.
    + injection E as _ E. now destruct w.
    + injection E as _ E. now apply (IH v).
Qed.

Ltac ends_in r c w :=
  solve [apply (no_trailing_dot r c w); [reflexivity | discriminate]].

Lemma dotted_not_reserved (u : string) :
  existsb (String.eqb (u ++ ".")) reserved = false.
Proof.
  unfold reserved. cbn [existsb].
  repeat match goal with
  | |- context [String.eqb (u ++ ".") ?r] =>
      rewrite (ends_with_dot_differs u r)
  end; try reflexivity.
  all: match goal with
       | |- forall v, ?r <> _ =>
           first
             [ ends_in r "f"%char "i"%string | ends_in r "e"%char "els"%string
             | ends_in r "t"%char "repea"%string | ends_in r "e"%char "whil"%string
             | ends_in r "n"%char "functio"%string | ends_in r "r"%char "fo"%string
             | ends_in r "t"%char "nex"%string | ends_in r "k"%char "brea"%string
             | ends_in r "n"%char "i"%string | ends_in r "E"%char "TRU"%string
             | ends_in r "E"%char "FALS"%string | ends_in r "L"%char "NUL"%string
             | ends_in r "f"%char "In"%string | ends_in r "N"%char "Na"%string
             | ends_in r "A"%char "N"%string | ends_in r "_"%char "NA_integer"%string
             | ends_in r "_"%char "NA_real"%string | ends_in r "_"%char "NA_complex"%string
             | ends_in r "_"%char "NA_character"%string ]
       end.
Qed.

Lemma make_name_syntactic (s : string) : syntactic (make_name s) = true.
Proof.
  unfold make_name. fold translated.
  set (t := if needs_prefix s then String "X" s else s).
  assert (Hp : needs_prefix (map_chars translated t) = false).
  { apply needs_prefix_translated. unfold t.
    destruct (needs_prefix s) eqn:E; [reflexivity | exact E]. }
  assert (Hv : chars_all valid_char (map_chars translated t) = true).
  { rewrite chars_all_map. apply chars_all_true, translated_valid. }
  unfold syntactic.
  destruct (existsb (String.eqb (map_chars translated t)) reserved) eqn:Hres.
  - rewrite (needs_prefix_dot _ Hp), chars_all_app, Hv.
    now rewrite dotted_not_reserved.
  - now rewrite Hp, Hv, Hres.
Qed.

Lemma syntactic_fixed (s : string) :
  syntactic s = true -> make_name s = s.
Proof.
  unfold syntactic. intros H.
  apply andb_true_iff in H as [H Hres]. apply andb_true_iff in H as [Hp Hv].
  apply negb_true_iff in Hp, Hres.
  unfold make_name. fold translated. rewrite Hp, (map_chars_valid s Hv).
  now rewrite Hres.
Qed.


(** *** Numbered names *)

Lemma mem_In (x : string) (l : list string) : mem x l = true <-> In x l.
Proof.
  unfold mem. rewrite existsb_exists. split.
  - intros (y & Hy & E). apply String.eqb_eq in E. now subst.
  - intros H. exists x. split; [exact H | apply String.eqb_refl].
Qed.

Lemma mem_not_In (x : string) (l : list string) :
  mem x l = false <-> ~ In x l.
Proof.
  rewrite <- mem_In. destruct (mem x l); split; congruence.
Qed.

Lemma dec_digits (n : nat) : chars_all is_digit (dec n) = true.
Proof.
  unfold dec. induction (Nat.to_uint n) as [|d IH|d IH|d IH|d IH|d IH|d IH
                                            |d IH|d IH|d IH|d IH];
    cbn [DecimalString.NilEmpty.string_of_uint chars_all];
    [reflexivity | rewrite IH; reflexivity ..].
Qed.

Lemma dec_nonempty (n : nat) : dec n <> EmptyString.
Proof.
  unfold dec. intros E.
  assert (H : Nat.to_uint n = Decimal.Nil) by now destruct (Nat.to_uint n).
  assert (H0 := DecimalNat.Unsigned.of_to n). rewrite H in H0.
  cbn in H0. subst n. discriminate H.
Qed.

Lemma dec_inj (n m : nat) : dec n = dec m -> n = m.
Proof.
  unfold dec. intros E. apply DecimalNat.Unsigned.to_uint_inj.
  assert (H : Some (Nat.to_uint n) = Some (Nat.to_uint m))
    by now rewrite <- !DecimalString.NilEmpty.usu, E.
  now injection H.
Qed.

Lemma append_not_self (s t : string) :
  t <> EmptyString -> (s ++ t)%string <> s.
Proof.
  intros Ht. induction s as [|c s IH]; simpl; [exact Ht|].
  intros [= E]. now apply IH.
Qed.

Lemma numbered_longer (s : string) (c : nat) : numbered s c <> s.
Proof. apply append_not_self. discriminate. Qed.

Lemma numbered_inj (s : string) (c c' : nat) :
  numbered s c = numbered s c' -> c = c'.
Proof.
  unfold numbered. intros E. apply append_cancel in E.
  injection E as E. now apply dec_inj.
Qed.

Lemma last_char_app (s t : string) :
  t <> EmptyString -> last_char (s ++ t) = last_char t.
Proof.
  intros Ht. induction s as [|c s IH]; [reflexivity|].
  cbn [append last_char]. rewrite IH.
  destruct (s ++ t)%string eqn:E; [|reflexivity].
  destruct s; [now elim Ht | discriminate E].
Qed.

Lemma digits_last (t : string) :
  chars_all is_digit t = true -> t <> EmptyString ->
  exists c, last_char t = Some c /\ is_digit c = true.
Proof.
  induction t as [|c t IH]; intros H Ht; [now elim Ht|].
  cbn [chars_all] in H. apply andb_true_iff in H as [Hc Hd].
  destruct t as [|d t]; [now exists c|].
  destruct (IH Hd) as (e & He & Hdig); [discriminate|]. now exists e.
Qed.

Lemma reserved_last (u : string) :
  existsb (String.eqb u) reserved = true ->
  exists c, last_char u = Some c /\ is_digit c = false.
Proof.
  unfold reserved. cbn [existsb]. rewrite !orb_true_iff. intros H.
  repeat match type of H with
         | _ \/ _ => destruct H as [H|H]
         end;
    try discriminate H;
    apply String.eqb_eq in H; subst u; eexists; split; reflexivity.
Qed.

Lemma needs_prefix_app (s t : string) :
  needs_prefix s = false -> needs_prefix (s ++ String "." t) = false.
Proof.
  destruct s as [|c s]; [discriminate|]. cbn [needs_prefix append].
  destruct (Ascii.eqb c "."); [|trivial].
  destruct s as [|d s]; [reflexivity | trivial].
Qed.

Lemma chars_all_impl (p q : ascii -> bool) (s : string) :
  (forall c, p c = true -> q c = true) ->
  chars_all p s = true -> chars_all q s = true.
Proof.
  intros H. induction s as [|c s IH]; [reflexivity|]. cbn [chars_all].
  rewrite !andb_true_iff. intros [Hc Hs]. split; [now apply H | now apply IH].
Qed.

Lemma digit_valid (c : ascii) : is_digit c = true -> valid_char c = true.
Proof.
  unfold valid_char. intros ->. now rewrite orb_true_r.
Qed.

(** A syntactic name with a number appended is syntactic. *)
Lemma numbered_syntactic (s : string) (c : nat) :
  syntactic s = true -> syntactic (numbered s c) = true.
Proof.
  unfold syntactic. intros H.
  apply andb_true_iff in H as [H _]. apply andb_true_iff in H as [Hp Hv].
  apply negb_true_iff in Hp. unfold numbered.
  change ("." ++ dec c)%string with (String "." (dec c)).
  rewrite (needs_prefix_app s (dec c) Hp), chars_all_app, Hv.
  cbn [chars_all negb andb].
  rewrite (chars_all_impl _ _ _ digit_valid (dec_digits c)).
  change (valid_char ".") with true. cbn [andb].
  apply negb_true_iff.
  destruct (existsb (String.eqb (s ++ String "." (dec c))) reserved) eqn:E;
    [|reflexivity].
  destruct (reserved_last _ E) as (x & Hx & Hd).
  rewrite last_char_app in Hx by discriminate.
  destruct (digits_last (dec c) (dec_digits c) (dec_nonempty c))
    as (y & Hy & Hyd).
  change (String "." (dec c)) with ("." ++ dec c)%string in Hx.
  rewrite (last_char_app "." (dec c) (dec_nonempty c)) in Hx.
  congruence.
Qed.

(** *** [make.unique] *)

Lemma numbered_list_distinct (s : string) (k m : nat) :
  NoDup (map (numbered s) (seq k m)).
Proof.
  apply Finite.Injective_map_NoDup; [|apply seq_NoDup].
  intros a b. apply numbered_inj.
Qed.

(** As many names in use as there are numbers tried, and one more. *)
Lemma pigeon (used : list string) (s : string) (n : nat) :
  In s used ->
  (forall c, 1 <= c < n -> In (numbered s c) used) ->
  n <= length used.
Proof.
  intros Hs Hall. destruct n as [|n]; [lia|].
  assert (H : NoDup (s :: map (numbered s) (seq 1 n))).
  { constructor; [|apply numbered_list_distinct].
    intros Hin. apply in_map_iff in Hin as (c & E & _).
    now apply (numbered_longer s c). }
  apply NoDup_incl_length with (l' := used) in H.
  - cbn [length] in H. now rewrite length_map, length_seq in H.
  - intros x [<-|Hx]; [exact Hs|].
    apply in_map_iff in Hx as (c & <- & Hc). apply in_seq in Hc.
    apply Hall. lia.
Qed.

(** The inner loop finds a name that is not in use before it runs out. *)
Lemma search_finds (used : list string) (s : string) (n : nat) :
  In s used -> length used < n ->
  forall fuel c0 newx,
    1 <= c0 -> fuel = n - c0 ->
    (forall c, 1 <= c < c0 -> In (numbered s c) used) ->
    exists c,
      search used s fuel c0 newx = (numbered s c, c) /\
      c0 <= c < n /\
      ~ In (numbered s c) used /\
      (forall c', 1 <= c' < c -> In (numbered s c') used).
Proof.
  intros Hs Hlen. induction fuel as [|fuel IH]; intros c0 newx Hc0 Hf Hall.
  - exfalso. assert (H := pigeon used s n Hs).
    assert (n <= length used); [|lia].
    apply H. intros c Hc. apply Hall. lia.
  - cbn [search]. destruct (mem (numbered s c0) used) eqn:E.
    + apply mem_In in E.
      destruct (IH (S c0) (numbered s c0)) as (c & Hc & Hr & Hfree & Hbelow);
        [lia | lia | |].
      * intros c Hc. destruct (Nat.eq_dec c c0) as [->|]; [exact E|].
        apply Hall. lia.
      * exists c. repeat split; trivial; lia.
    + apply mem_not_In in E. exists c0. repeat split; trivial; lia.
Qed.

Lemma firsts_repeats (seen names : list string) :
  length (firsts seen names) + repeats seen names = length names.
Proof.
  revert seen. induction names as [|s rest IH]; intros seen; [reflexivity|].
  cbn [firsts repeats]. destruct (mem s seen); cbn [length].
  - rewrite <- (IH seen). lia.
  - rewrite <- (IH (s :: seen)). lia.
Qed.

Lemma firsts_cover (seen names : list string) (x : string) :
  In x names -> In x seen \/ In x (firsts seen names).
Proof.
  revert seen. induction names as [|s rest IH]; intros seen; [contradiction|].
  cbn [firsts]. intros [->|Hx].
  - destruct (mem x seen) eqn:E; [left; now apply mem_In | right; now left].
  - destruct (mem s seen) eqn:E.
    + now apply IH.
    + destruct (IH (s :: seen) Hx) as [[->|H]|H].
      * right. now left.
      * now left.
      * right. now right.
Qed.

Lemma counter_cons (s k : string) (c : nat) (cnts : list (string * nat)) :
  counter s ((k, c) :: cnts) = if String.eqb k s then c else counter s cnts.
Proof. reflexivity. Qed.

(** The outer loop: as many names as before, pairwise distinct, each of
    them a first occurrence or a name that was not in use, and each of
    them a name of the vector or such a name with a number. *)
Lemma uniq_spec (n : nat) (rest : list string) :
  forall seen used cnts newx,
    (forall x, In x seen -> In x used) ->
    (forall x, In x rest -> In x used) ->
    length used + repeats seen rest <= n ->
    (forall s, 1 <= counter s cnts) ->
    (forall s c, 1 <= c < counter s cnts -> In (numbered s c) used) ->
    length (uniq n seen used cnts newx rest) = length rest /\
    NoDup (uniq n seen used cnts newx rest) /\
    (forall y, In y (uniq n seen used cnts newx rest) ->
       (In y rest /\ ~ In y seen) \/ ~ In y used) /\
    (forall y, In y (uniq n seen used cnts newx rest) ->
       In y rest \/ exists s c, In s rest /\ y = numbered s c).
Proof.
  induction rest as [|s rest IH];
    intros seen used cnts newx Hseen Hrest Hlen Hpos Hcnt.
  - cbn [uniq]. repeat split; [constructor | contradiction..].
  - cbn [uniq]. cbn [repeats] in Hlen.
    destruct (mem s seen) eqn:E.
    + destruct (search_finds used s n (Hrest s (or_introl eq_refl))
                  ltac:(lia) (n - counter s cnts) (counter s cnts) newx
                  (Hpos s) eq_refl (Hcnt s))
        as (c & -> & Hc & Hfree & Hbelow).
      cbn [fst snd].
      destruct (IH seen (numbered s c :: used) ((s, S c) :: cnts)
                  (numbered s c)) as (Hl & Hnd & Hout & Horig).
      * intros x Hx. right. now apply Hseen.
      * intros x Hx. right. apply Hrest. now right.
      * cbn [length]. lia.
      * intros t. rewrite counter_cons. destruct (String.eqb s t); [lia|].
        apply Hpos.
      * intros t k. rewrite counter_cons.
        destruct (String.eqb_spec s t) as [<-|Hne]; intros Hk.
        -- destruct (Nat.eq_dec k c) as [->|]; [now left|].
           right. apply Hbelow. lia.
        -- right. now apply Hcnt.
      * split; [cbn [length]; now rewrite Hl|]. split; [|split].
        -- constructor; [|exact Hnd]. intros Hin.
           destruct (Hout _ Hin) as [[Hr _]|Hn].
           ++ apply Hfree, Hrest. now right.
           ++ apply Hn. now left.
        -- intros y [<-|Hy]; [now right|].
           destruct (Hout y Hy) as [[Hr Hs]|Hn].
           ++ left. split; [now right | exact Hs].
           ++ right. intros Hu. apply Hn. now right.
        -- intros y [<-|Hy].
           ++ right. exists s, c. split; [now left | reflexivity].
           ++ destruct (Horig y Hy) as [Hr|(t & k & Ht & ->)].
              ** left. now right.
              ** right. exists t, k. split; [now right | reflexivity].
    + apply mem_not_In in E.
      destruct (IH (s :: seen) used cnts newx) as (Hl & Hnd & Hout & Horig).
      * intros x [<-|Hx]; [apply Hrest; now left | now apply Hseen].
      * intros x Hx. apply Hrest. now right.
      * exact Hlen.
      * exact Hpos.
      * exact Hcnt.
      * split; [cbn [length]; now rewrite Hl|]. split; [|split].
        -- constructor; [|exact Hnd]. intros Hin.
           destruct (Hout _ Hin) as [[_ Hs]|Hn].
           ++ apply Hs. now left.
           ++ apply Hn, Hrest. now left.
        -- intros y [<-|Hy]; [left; split; [now left | exact E]|].
           destruct (Hout y Hy) as [[Hr Hs]|Hn].
           ++ left. split; [now right|]. intros Hin. apply Hs. now right.
           ++ now right.
        -- intros y [<-|Hy]; [left; now left|].
           destruct (Horig y Hy) as [Hr|(t & k & Ht & ->)].
           ++ left. now right.
           ++ right. exists t, k. split; [now right | reflexivity].
Qed.

Lemma make_unique_spec (names : list string) :
  length (make_unique names) = length names /\
  NoDup (make_unique names) /\
  (forall y, In y (make_unique names) ->
     In y names \/ exists s c, In s names /\ y = numbered s c).
Proof.
  unfold make_unique.
  destruct (uniq_spec (length names) names [] (firsts [] names) []
              EmptyString) as (Hl & Hnd & _ & Horig).
  - contradiction.
  - intros x Hx. destruct (firsts_cover [] names x Hx); [contradiction|].
    assumption.
  - now rewrite firsts_repeats.
  - intros s. cbn [counter]. lia.
  - intros s c. cbn [counter]. lia.
  - now repeat split.
Qed.

Lemma uniq_distinct (n : nat) (rest : list string) :
  forall seen used cnts newx,
    (forall x, In x rest -> ~ In x seen) -> NoDup rest ->
    uniq n seen used cnts newx rest = rest.
Proof.
  induction rest as [|s rest IH]; intros seen used cnts newx Hs Hnd;
    [reflexivity|].
  cbn [uniq]. inversion Hnd as [|? ? Hin Hnd']; subst.
  destruct (mem s seen) eqn:E.
  - apply mem_In in E. exfalso. apply (Hs s); [now left | exact E].
  - f_equal. apply IH; [|exact Hnd'].
    intros x Hx [<-|Hseen]; [contradiction|].
    apply (Hs x); [now right | exact Hseen].
Qed.

Lemma make_unique_distinct (names : list string) :
  NoDup names -> make_unique names = names.
Proof. intros H. now apply uniq_distinct. Qed.

(** *** [make.names] with [unique = TRUE] *)

Lemma pick_in (b : bool) (flags : list bool) (l : list string) (x : string) :
  In x (pick b flags l) -> In x l.
Proof.
  revert l. induction flags as [|f flags IH]; intros [|y l]; cbn [pick];
    try contradiction.
  destruct (Bool.eqb f b); [intros [<-|H]; [now left|]|intros H];
    right; now apply IH.
Qed.

Lemma pick_lengths (flags : list bool) (l : list string) :
  length flags = length l ->
  length (pick false flags l) + length (pick true flags l) = length l.
Proof.
  revert l. induction flags as [|f flags IH]; intros [|y l] H;
    try discriminate; [reflexivity|].
  injection H as H. specialize (IH l H). cbn [pick].
  destruct f; cbn [Bool.eqb length]; lia.
Qed.

Lemma merge_spec (flags : list bool) :
  forall (l a b : list string),
    length flags = length l ->
    length a = length (pick false flags l) ->
    length b = length (pick true flags l) ->
    length (merge flags a b) = length flags /\
    Permutation (merge flags a b) (a ++ b).
Proof.
  induction flags as [|f flags IH]; intros [|y l] a b H Ha Hb;
    try discriminate.
  - destruct a, b; try discriminate. split; [reflexivity | constructor].
  - injection H as H. cbn [pick] in Ha, Hb. destruct f; cbn [Bool.eqb] in *.
    + destruct b as [|x b]; [discriminate|]. injection Hb as Hb.
      destruct (IH l a b H Ha Hb) as [Hl Hp]. cbn [merge length].
      split; [now rewrite Hl|]. now apply Permutation_cons_app.
    + destruct a as [|x a]; [discriminate|]. injection Ha as Ha.
      destruct (IH l a b H Ha Hb) as [Hl Hp]. cbn [merge length].
      split; [now rewrite Hl|]. cbn [app]. now constructor.
Qed.

Lemma merge_unflagged (l : list string) :
  merge (map (fun _ => false) l) l [] = l.
Proof. induction l as [|x l IH]; [reflexivity|]. cbn [map merge]. now rewrite IH. Qed.

Lemma pick_unflagged (l : list string) :
  pick false (map (fun _ => false) l) l = l /\
  pick true (map (fun _ => false) l) l = [].
Proof.
  induction l as [|x l [IH1 IH2]]; [now split|]. cbn [map pick Bool.eqb].
  now rewrite IH1, IH2.
Qed.

(** The names [make.names] gives, with [unique = TRUE]: one per name
    given, pairwise distinct, and syntactic. *)
Lemma make_names_spec (names : list string) :
  length (make_names names) = length names /\
  NoDup (make_names names) /\
  Forall (fun s => syntactic s = true) (make_names names).
Proof.
  unfold make_names.
  set (names2 := map make_name names).
  set (flags := map (fun s => negb (String.eqb s (make_name s))) names).
  set (kept := pick false flags names2).
  set (altered := pick true flags names2).
  set (u := make_unique (kept ++ altered)).
  assert (Hfl : length flags = length names2)
    by (unfold flags, names2; now rewrite !length_map).
  assert (Hn2 : length names2 = length names)
    by (unfold names2; now rewrite length_map).
  assert (Hp := pick_lengths flags names2 Hfl). fold kept altered in Hp.
  destruct (make_unique_spec (kept ++ altered)) as (Hul & Hund & Huo).
  fold u in Hul, Hund, Huo. rewrite length_app in Hul.
  destruct (merge_spec flags names2 (firstn (length kept) u)
              (skipn (length kept) u) Hfl) as [Hml Hmp].
  - fold kept. apply firstn_length_le. lia.
  - fold altered. rewrite length_skipn. lia.
  - rewrite firstn_skipn in Hmp. split; [lia|]. split.
    + apply (Permutation_NoDup (Permutation_sym Hmp) Hund).
    + apply Forall_forall. intros y Hy.
      apply (Permutation_in _ Hmp) in Hy.
      assert (Hsyn : forall x, In x (kept ++ altered) -> syntactic x = true).
      { intros x Hx. apply in_app_or in Hx.
        assert (Hin : In x names2)
          by (destruct Hx as [Hx|Hx]; now apply pick_in in Hx).
        apply in_map_iff in Hin as (z & <- & _). apply make_name_syntactic. }
      destruct (Huo y Hy) as [Hx|(x & c & Hx & ->)].
      * now apply Hsyn.
      * apply numbered_syntactic. now apply Hsyn.
Qed.

(** The names that [make.names] leaves as they are: the vectors of
    pairwise distinct syntactic names. *)
Lemma make_names_fixed (names : list string) :
  make_names names = names <->
  NoDup names /\ Forall (fun s => syntactic s = true) names.
Proof.
  split.
  - intros E. destruct (make_names_spec names) as (_ & Hnd & Hsyn).
    rewrite E in Hnd, Hsyn. now split.
  - intros [Hnd Hsyn]. unfold make_names.
    assert (E2 : map make_name names = names).
    { rewrite <- (map_id names) at 2. apply map_ext_in. intros s Hs.
      apply syntactic_fixed. exact (proj1 (Forall_forall _ _) Hsyn s Hs). }
    assert (Ef : map (fun s => negb (String.eqb s (make_name s))) names
                 = map (fun _ => false) names).
    { apply map_ext_in. intros s Hs.
      rewrite (syntactic_fixed s (proj1 (Forall_forall _ _) Hsyn s Hs)).
      now rewrite String.eqb_refl. }
    rewrite E2, Ef. destruct (pick_unflagged names) as [-> ->].
    rewrite app_nil_r, (make_unique_distinct names Hnd).
    rewrite firstn_all, skipn_all. apply merge_unflagged.
Qed.

Lemma check_names_inv (labels labels' : list string) :
  check_names labels = Some labels' ->
  existsb taken labels = false /\ labels' = make_names labels.
Proof.
  unfold check_names. destruct (existsb taken labels); [discriminate|].
  intros [= <-]. now split.
Qed.

End RNames.

(** ** Python dicts *)

Section DictFacts.

Lemma combine_map_fst {A B : Type} (l : list A) (l' : list B) :
  length l = length l' -> map fst (combine l l') = l.
Proof.
  revert l'. induction l as [|a l IH]; intros [|b l'] H; try discriminate;
    [reflexivity|].
  injection H as H. simpl. now rewrite IH.
Qed.

Lemma combine_map_snd {A B : Type} (l : list A) (l' : list B) :
  length l = length l' -> map snd (combine l l') = l'.
Proof.
  revert l'. induction l as [|a l IH]; intros [|b l'] H; try discriminate;
    [reflexivity|].
  injection H as H. simpl. now rewrite IH.
Qed.

Context {V : Type}.

Lemma dict_set_new (d : list (string * V)) (k : string) (v : V) :
  ~ In k (map fst d) -> dict_set d k v = d ++ [(k, v)].
Proof.
  induction d as [|[k' v'] d IH]; cbn [dict_set map fst In app]; intros H;
    [reflexivity|].
  destruct (String.eqb_spec k' k) as [->|Hne]; [exfalso; apply H; now left|].
  rewrite IH; [reflexivity|]. intros Hin. apply H. now right.
Qed.

Lemma dict_set_in (d : list (string * V)) (k : string) (v : V)
    (p : string * V) :
  In p (dict_set d k v) -> In p d \/ p = (k, v).
Proof.
  induction d as [|[k' v'] d IH]; cbn [dict_set In].
  - intros [<-|[]]. now right.
  - destruct (String.eqb_spec k' k) as [->|Hne].
    + intros [<-|H]; [now right | left; now right].
    + intros [<-|H]; [left; now left|].
      destruct (IH H) as [H'|H']; [left; now right | now right].
Qed.

Lemma dict_set_keys (d : list (string * V)) (k : string) (v : V)
    (k' : string) :
  In k' (map fst (dict_set d k v)) <-> In k' (map fst d) \/ k' = k.
Proof.
  induction d as [|[k0 v0] d IH]; cbn [dict_set map fst In].
  - intuition congruence.
  - destruct (String.eqb_spec k0 k) as [->|Hne]; cbn [map fst In].
    + intuition congruence.
    + rewrite IH. intuition congruence.
Qed.

Lemma dict_set_distinct (d : list (string * V)) (k : string) (v : V) :
  NoDup (map fst d) -> NoDup (map fst (dict_set d k v)).
Proof.
  induction d as [|[k0 v0] d IH]; cbn [dict_set map fst]; intros H.
  - repeat constructor. intros [].
  - inversion H as [|? ? Hin Hnd]; subst.
    destruct (String.eqb_spec k0 k) as [->|Hne]; cbn [map fst].
    + now constructor.
    + constructor; [|now apply IH].
      rewrite dict_set_keys. intros [H'|H']; [contradiction | congruence].
Qed.

Lemma fold_dict_distinct (items acc : list (string * V)) :
  NoDup (map fst (acc ++ items)) -> fold_left (fun d kv => dict_set d (fst kv) (snd kv)) items acc = acc ++ items.
Proof.
  revert acc. induction items as [|[k v] items IH]; intros acc H;
    cbn [fold_left fst snd].
  - now rewrite app_nil_r.
  - rewrite dict_set_new.
    + rewrite IH; rewrite <- app_assoc; [reflexivity | exact H].
    + rewrite map_app in H. cbn [map fst] in H.
      apply NoDup_remove_2 in H. intros Hin. apply H, in_or_app. now left.
Qed.

(** Pairwise distinct keys go into a dict as they come. *)
Lemma dict_distinct (items : list (string * V)) :
  NoDup (map fst items) -> dict items = items.
Proof. intros H. now apply (fold_dict_distinct items []). Qed.

Lemma fold_dict_in (items acc : list (string * V)) (p : string * V) :
  In p (fold_left (fun d kv => dict_set d (fst kv) (snd kv)) items acc) -> In p acc \/ In p items.
Proof.
  revert acc. induction items as [|[k v] items IH]; intros acc;
    cbn [fold_left fst snd]; [now left|].
  intros H. destruct (IH _ H) as [H'|H']; [|right; now right].
  destruct (dict_set_in _ _ _ _ H') as [H'' | ->]; [now left | right; now left].
Qed.

(** Every entry of the dict is one of the items. *)
Lemma dict_in (items : list (string * V)) (p : string * V) :
  In p (dict items) -> In p items.
Proof.
  intros H. destruct (fold_dict_in items [] p H); [contradiction | assumption].
Qed.

Lemma fold_dict_keys (items acc : list (string * V)) (k : string) :
  In k (map fst (fold_left (fun d kv => dict_set d (fst kv) (snd kv)) items acc)) <->
  In k (map fst acc) \/ In k (map fst items).
Proof.
  revert acc. induction items as [|[k0 v0] items IH]; intros acc;
    cbn [fold_left fst snd map In]; [tauto|].
  rewrite IH, dict_set_keys. intuition congruence.
Qed.

(** The keys of the dict are the keys of the items. *)
Lemma dict_keys (items : list (string * V)) (k : string) :
  In k (map fst (dict items)) <-> In k (map fst items).
Proof.
  unfold dict. rewrite fold_dict_keys. cbn [map In]. tauto.
Qed.

Lemma fold_dict_keys_distinct (items acc : list (string * V)) :
  NoDup (map fst acc) -> NoDup (map fst (fold_left (fun d kv => dict_set d (fst kv) (snd kv)) items acc)).
Proof.
  revert acc. induction items as [|[k v] items IH]; intros acc H;
    cbn [fold_left fst snd]; [exact H|].
  now apply IH, dict_set_distinct.
Qed.

Lemma dict_keys_distinct (items : list (string * V)) :
  NoDup (map fst (dict items)).
Proof. apply fold_dict_keys_distinct. constructor. Qed.






End DictFacts.

(** ** The bridge *)

Section BridgeFacts.

Import Bridge.

Lemma nth_error_seq (n i : nat) :
  nth_error (seq 0 n) i = if i <? n then Some i else None.
Proof.
  destruct (Nat.ltb_spec i n) as [H|H].
  - rewrite (nth_error_nth' _ 0) by now rewrite length_seq.
    now rewrite seq_nth.
  - apply nth_error_None. now rewrite length_seq.
Qed.

(** Entry [(i, j)] of the transpose is entry [(j, i)]. *)
Lemma transpose_entry (a : ndarray) (i j : nat) :
  Sparse.rectangular a ->
  Sparse.dense_entry (transpose a) i j = Sparse.dense_entry a j i.
Proof.
  intros [_ Hcols]. unfold Sparse.dense_entry, transpose. cbn [rows].
  rewrite nth_error_map, nth_error_seq.
  destruct (Nat.ltb_spec i (ncols a)) as [Hi|Hi]; cbn [option_map bind].
  - rewrite nth_error_map.
    destruct (nth_error (rows a) j) as [r|] eqn:Hr; cbn [option_map bind];
      [|reflexivity].
    assert (Hlen : length r = ncols a).
    { apply (proj1 (Forall_forall _ _) Hcols). eapply nth_error_In, Hr. }
    symmetry. apply nth_error_nth'. lia.
  - destruct (nth_error (rows a) j) as [r|] eqn:Hr; cbn [bind];
      [|reflexivity].
    assert (Hlen : length r = ncols a).
    { apply (proj1 (Forall_forall _ _) Hcols). eapply nth_error_In, Hr. }
    symmetry. apply nth_error_None. lia.
Qed.

Lemma to_py_entry (m : rmatrix) (i j : nat) :
  r_rectangular m -> Sparse.entry (to_py m) i j = R.entry m j i.
Proof.
  destruct m as [a|c]; simpl; intros H; [|reflexivity].
  now apply transpose_entry.
Qed.


Lemma to_py_shape (m : rmatrix) :
  Sparse.shape (to_py m) = (snd (R.shape m), fst (R.shape m)).
Proof. now destruct m. Qed.

Lemma r2py_parts (x : SingleCellExperiment) (adata : AnnData) :
  r2py x = Some adata ->
  exists o m rest,
    assays x = (o, m) :: rest /\ X adata = to_py m /\
    obs adata = frame_to_py (colData x) /\
    var adata = frame_to_py (rowData x).
Proof.
  unfold r2py. destruct (assays x) as [|[[n|] m] rest]; try discriminate.
  destruct (to_layers rest) as [ls|]; [|discriminate].
  cbn [bind]. intros [= <-]. now exists (Some n), m, rest.
Qed.




Lemma frame_to_py_distinct (f : DFrame) :
  NoDup (colnames f) ->
  frame_to_py f =
  {| index := rownames f; index_name := None;
     columns := colnames f; series := map snd (listData f) |}.
Proof.
  intros H. unfold frame_to_py. now rewrite (dict_distinct _ H).
Qed.

Lemma frame_to_r_inv (df : DataFrame) (f : DFrame) :
  frame_to_r df = Some f ->
  existsb R.taken (map fst (Pandas.items df)) = false /\
  rownames f = index df /\
  colnames f = R.make_names (map fst (dict (Pandas.items df))) /\
  map snd (listData f) = map snd (dict (Pandas.items df)).
Proof.
  unfold frame_to_r.
  destruct (R.check_names (map fst (dict (Pandas.items df))))
    as [labels|] eqn:E; [|discriminate].
  cbn [bind]. intros [= <-].
  destruct (check_names_inv _ _ E) as [Ht ->].
  assert (Hl : length (R.make_names (map fst (dict (Pandas.items df))))
               = length (map snd (dict (Pandas.items df)))).
  { rewrite (proj1 (make_names_spec _)). now rewrite !length_map. }
  unfold colnames. cbn [rownames listData].
  rewrite (combine_map_fst _ _ Hl), (combine_map_snd _ _ Hl).
  repeat split.
  destruct (existsb R.taken (map fst (Pandas.items df))) eqn:E';
    [|reflexivity].
  apply existsb_exists in E' as (l & Hl' & Hlt).
  apply (dict_keys (Pandas.items df) l) in Hl'.
  rewrite <- Ht. symmetry. apply existsb_exists. now exists l.
Qed.




Lemma py2r_inv (adata : AnnData) (x : SingleCellExperiment) :
  py2r adata = Some x ->
  frame_to_r (obs adata) = Some (colData x) /\
  frame_to_r (var adata) = Some (rowData x) /\
  assays x = (Some "X"%string, to_r (X adata))
               :: map (fun l => (Some (fst l), to_r (snd l))) (layers adata).
Proof.
  unfold py2r.
  destruct (frame_to_r (obs adata)) as [cd|]; [|discriminate].
  destruct (frame_to_r (var adata)) as [rd|]; [|discriminate].
  cbn [bind]. intros [= <-]. now repeat split.
Qed.

Lemma py2r_runs (adata : AnnData) (cd rd : DFrame) :
  frame_to_r (obs adata) = Some cd ->
  frame_to_r (var adata) = Some rd ->
  py2r adata =
  Some {| assays := (Some "X"%string, to_r (X adata))
                      :: map (fun l => (Some (fst l), to_r (snd l)))
                             (layers adata);
          rowData := rd; colData := cd |}.
Proof. intros Ho Hv. unfold py2r. now rewrite Ho, Hv. Qed.

End BridgeFacts.

#[local] Set Warnings "-abstract-large-number".

(** C10.  When the bridge hands an R dataset to Python the matrix is
    turned over: the shape [(variables, observations)] becomes
    [(observations, variables)] (so 46604 x 192 becomes 192 x 46604), and
    the entry at observation [i], variable [j] of the result is the entry
    at variable [j], observation [i] of the source. *)
Theorem bridge_convert_transposes
    (x : SingleCellExperiment) (adata : AnnData)
    (o : option string) (m : rmatrix) (rest : list (option string * rmatrix)) :
  Bridge.r2py x = Some adata ->
  assays x = (o, m) :: rest ->
  r_rectangular m ->
  Sparse.shape (X adata) = (snd (R.shape m), fst (R.shape m)) /\
  (R.shape m = (46604, 192) -> Sparse.shape (X adata) = (192, 46604)) /\
  (forall i j, Sparse.entry (X adata) i j = R.entry m j i).
Proof.
  intros Hconv Hx Hrect.
  destruct (r2py_parts x adata Hconv) as (o' & m' & rest' & Hx' & HX & _).
  rewrite Hx in Hx'. injection Hx' as <- <- <-.
  rewrite HX. split; [apply to_py_shape|]. split.
  - intros E. now rewrite to_py_shape, E.
  - intros i j. now apply to_py_entry.
Qed.

Lemma bridge_convert_transposes_witness :
  exists adata,
    Bridge.r2py Sample.sce = Some adata /\
    Sparse.shape (X adata) = (2, 3) /\
    Sparse.entry (X adata) 0 2 = Some Sample.two.
Proof.
  eexists. split; [reflexivity|].
  destruct (bridge_convert_transposes Sample.sce _ (Some "X"%string)
              (RDense (Bridge.transpose Sample.counts)) []
              eq_refl eq_refl) as (Hs & _ & He).
  - split; [reflexivity | repeat constructor].
  - split; [exact Hs | exact (He 0 2)].
Defined.




(** * Further properties of the notebook's cells *)

(** ** Column-name normalisation: what comes out, what stays, what merges *)

Section NormalForms.

Import PyStr.



Lemma fixed_normal_char (c : ascii) :
  norm_char c = c -> normal_char c = true.
Proof.
  destruct c as [[] [] [] [] [] [] [] []]; vm_compute;
    first [reflexivity | discriminate].
Qed.


Lemma fixed_map_chars (s : string) :
  map_chars norm_char s = s -> chars_all normal_char s = true.
Proof.
  induction s as [|c s IH]; simpl; [reflexivity|].
  intros [= Hc Hs]. now rewrite (fixed_normal_char c Hc), (IH Hs).
Qed.



(** A character map that keeps white space white space and the rest the
    rest goes through [strip]. *)
Lemma lstrip_map (f : ascii -> ascii) (s : string) :
  (forall c, isspace (f c) = isspace c) ->
  lstrip (map_chars f s) = map_chars f (lstrip s).
Proof.
  intros Hf. induction s as [|c s IH]; simpl; [reflexivity|].
  rewrite Hf. now destruct (isspace c).
Qed.

Lemma rstrip_map (f : ascii -> ascii) (s : string) :
  (forall c, isspace (f c) = isspace c) ->
  rstrip (map_chars f s) = map_chars f (rstrip s).
Proof.
  intros Hf. induction s as [|c s IH]; simpl; [reflexivity|].
  rewrite IH, Hf. destruct (rstrip s); simpl; [|reflexivity].
  now destruct (isspace c).
Qed.

Lemma strip_map (f : ascii -> ascii) (s : string) :
  (forall c, isspace (f c) = isspace c) ->
  strip (map_chars f s) = map_chars f (strip s).
Proof.
  intros Hf. unfold strip. now rewrite lstrip_map, rstrip_map.
Qed.

Lemma normalize_name_after_map (f : ascii -> ascii) (s : string) :
  (forall c, isspace (f c) = isspace c) ->
  (forall c, norm_char (f c) = norm_char c) ->
  normalize_name (map_chars f s) = normalize_name s.
Proof.
  intros Hs Hn. unfold normalize_name. rewrite !passes_after_strip.
  rewrite (strip_map f s Hs), map_chars_compose.
  now apply map_chars_ext.
Qed.

Lemma normalize_name_lower (s : string) :
  normalize_name (lower s) = normalize_name s.
Proof.
  apply normalize_name_after_map; intros c;
    destruct c as [[] [] [] [] [] [] [] []]; vm_compute; reflexivity.
Qed.

Lemma normalize_name_period (s : string) :
  normalize_name (replace "." "_" s) = normalize_name s.
Proof.
  apply normalize_name_after_map; intros c;
    destruct c as [[] [] [] [] [] [] [] []]; vm_compute; reflexivity.
Qed.

Lemma append_assoc (a b c : string) :
  ((a ++ b) ++ c = a ++ b ++ c)%string.
Proof. induction a as [|x a IH]; simpl; [reflexivity|]. now rewrite IH. Qed.

Lemma all_space_app (a b : string) :
  all_space a = true -> all_space b = true ->
  all_space (a ++ b) = true.
Proof.
  intros Ha Hb. induction a as [|x a IH]; simpl in *; [exact Hb|].
  apply andb_true_iff in Ha as [Hx Ha]. now rewrite Hx, IH.
Qed.

Lemma normalize_name_padding (l s r : string) :
  all_space l = true -> all_space r = true ->
  normalize_name (l ++ s ++ r) = normalize_name s.
Proof.
  intros Hl Hr.
  destruct (strip_split s) as (l' & r' & E & Hl' & Hr' & Hh & Hlast).
  unfold normalize_name. do 2 f_equal. f_equal.
  rewrite E at 1.
  replace (l ++ (l' ++ strip s ++ r') ++ r)%string
    with ((l ++ l') ++ strip s ++ (r' ++ r))%string
    by now rewrite !append_assoc.
  apply strip_unique; trivial; now apply all_space_app.
Qed.

End NormalForms.





(** X3.  Labels that differ only in letter case, in a period written for
    an underscore, or in white space around them come out as one and the
    same label: normalisation can leave a frame with repeated labels. *)
Theorem normalize_merges_variants
    (adata : AnnData) (i j : nat) (s t : string) :
  nth_error (columns (obs adata)) i = Some s ->
  nth_error (columns (obs adata)) j = Some t ->
  (t = PyStr.lower s \/ t = PyStr.replace "." "_" s \/
   exists l r, all_space l = true /\ all_space r = true /\
               t = (l ++ s ++ r)%string) ->
  exists adata',
    normalize_observation_attribute_names adata = Some adata' /\
    nth_error (columns (obs adata')) i = Some (normalize_name s) /\
    nth_error (columns (obs adata')) j = Some (normalize_name s).
Proof.
  intros Hi Hj Hv. eexists. split; [apply normalize_runs|]. simpl.
  rewrite !nth_error_map, Hi, Hj. simpl. split; [reflexivity|]. f_equal.
  destruct Hv as [-> | [-> | (l & r & Hl & Hr & ->)]].
  - apply normalize_name_lower.
  - apply normalize_name_period.
  - now apply normalize_name_padding.
Qed.

Lemma normalize_merges_variants_witness :
  exists adata',
    normalize_observation_attribute_names
      (with_obs_labels ["Cell.Type"; "cell_type"; " Cell.Type"]%string)
      = Some adata' /\
    nth_error (columns (obs adata')) 0 = Some "cell_type"%string /\
    nth_error (columns (obs adata')) 2 = Some "cell_type"%string.
Proof.
  apply (normalize_merges_variants
           (with_obs_labels ["Cell.Type"; "cell_type"; " Cell.Type"]%string)
           0 2 "Cell.Type" " Cell.Type"); try reflexivity.
  right. right. exists " "%string, EmptyString. now repeat split.
Defined.

(** X4.  Normalisation keeps the shape invariants of the dataset: as many
    labels as columns, every column as long as the index, one
    observation per matrix row and one variable per matrix column. *)
Theorem normalize_keeps_consistent (adata : AnnData) :
  consistent adata ->
  exists adata',
    normalize_observation_attribute_names adata = Some adata' /\
    consistent adata'.
Proof.
  intros (Ho & Hv & (Hol & Hoc) & Hvw).
  eexists. split; [apply normalize_runs|].
  unfold consistent, Pandas.well_formed. simpl.
  rewrite length_map. repeat split; trivial. apply Hvw. apply Hvw.
Qed.

Lemma normalize_keeps_consistent_witness :
  exists adata',
    normalize_observation_attribute_names Sample.adata_loom = Some adata' /\
    consistent adata'.
Proof.
  apply (normalize_keeps_consistent Sample.adata_loom).
  unfold consistent, Pandas.well_formed. simpl.
  repeat split; repeat constructor.
Defined.

(** ** The gene-identifier fix: when it runs, and what a second run does *)

Section IdentifierFix.

Local Open Scope string_scope.

Lemma fix_runs (adata : AnnData) (v : Pandas.selection) (var2 : DataFrame) :
  length (index (var adata)) = snd (Sparse.shape (X adata)) ->
  Pandas.getattr (Pandas.rename (var adata) gene_ids_mapper) "gene_ids"
    = Some v ->
  Pandas.assign_index (Pandas.rename (var adata) gene_ids_mapper)
    "gene_ids" v = Some var2 ->
  normalize_variable_identifiers adata =
  Some {| X := X adata; obs := obs adata; var := var2;
          layers := layers adata |}.
Proof.
  intros Hn Hv Ha. unfold normalize_variable_identifiers, set_var.
  cbn [Pandas.rename index]. rewrite Hn, Nat.eqb_refl.
  cbn [bind var X obs layers]. rewrite Hv. cbn [bind]. now rewrite Ha.
Qed.

Lemma fix_inv (adata adata' : AnnData) :
  normalize_variable_identifiers adata = Some adata' ->
  exists v var2,
    length (index (var adata)) = snd (Sparse.shape (X adata)) /\
    Pandas.getattr (Pandas.rename (var adata) gene_ids_mapper) "gene_ids"
      = Some v /\
    Pandas.assign_index (Pandas.rename (var adata) gene_ids_mapper)
      "gene_ids" v = Some var2 /\
    adata' = {| X := X adata; obs := obs adata; var := var2;
                layers := layers adata |}.
Proof.
  unfold normalize_variable_identifiers, set_var.
  cbn [Pandas.rename index].
  destruct (Nat.eqb_spec (length (index (var adata)))
              (snd (Sparse.shape (X adata)))) as [Hn|]; [|discriminate].
  cbn [bind var X obs layers].
  destruct (Pandas.getattr _ "gene_ids") as [v|] eqn:Hv; [|discriminate].
  cbn [bind].
  destruct (Pandas.assign_index _ "gene_ids" v) as [var2|] eqn:Ha;
    [|discriminate].
  cbn [bind]. intros [= <-]. now exists v, var2.
Qed.

Lemma tuples_length (n : nat) (cs : list (list cell)) :
  length (Pandas.tuples n cs) = n.
Proof. unfold Pandas.tuples. now rewrite length_map, length_seq. Qed.

(** What an index assignment leaves in place, and that it can be
    repeated. *)
Lemma assign_index_facts (df df2 : DataFrame) (name : string)
    (v : Pandas.selection) :
  Pandas.assign_index df name v = Some df2 ->
  columns df2 = columns df /\ series df2 = series df /\
  length (index df2) = length (index df) /\
  Pandas.assign_index df2 name v = Some df2.
Proof.
  destruct v as [c|cs]; cbn [Pandas.assign_index].
  - unfold Pandas.set_index.
    destruct (Nat.eqb_spec (length c) (length (index df))) as [E|];
      [|discriminate].
    intros [= <-]. cbn [index columns series]. now rewrite Nat.eqb_refl.
  - intros [= <-]. cbn [index columns series].
    now rewrite !tuples_length.
Qed.

Lemma renamed_twice (l : string) :
  Pandas.renamed gene_ids_mapper (Pandas.renamed gene_ids_mapper l) =
  Pandas.renamed gene_ids_mapper l.
Proof.
  cbn [Pandas.renamed gene_ids_mapper].
  destruct (String.eqb l "rownames") eqn:E; [reflexivity|]. now rewrite E.
Qed.

Lemma rename_renamed (df df2 : DataFrame) :
  columns df2 = map (Pandas.renamed gene_ids_mapper) (columns df) ->
  Pandas.rename df2 gene_ids_mapper = df2.
Proof.
  destruct df2 as [i n c d]. unfold Pandas.rename.
  cbn [index index_name columns series]. intros ->.
  rewrite map_map. f_equal. apply map_ext, renamed_twice.
Qed.




End IdentifierFix.

(** X5.  The gene-identifier fix can be run again: once it has
    succeeded, a second run succeeds and returns the same dataset. *)
Theorem normalize_variable_identifiers_idempotent (adata adata' : AnnData) :
  normalize_variable_identifiers adata = Some adata' ->
  normalize_variable_identifiers adata' = Some adata'.
Proof.
  intros H.
  destruct (fix_inv adata adata' H) as (v & var2 & Hn & Hv & Ha & ->).
  destruct (assign_index_facts _ _ _ _ Ha) as (Hc & Hs & Hl & Hagain).
  assert (Hr : Pandas.rename var2 gene_ids_mapper = var2)
    by (apply (rename_renamed (var adata)); exact Hc).
  rewrite (fix_runs {| X := X adata; obs := obs adata; var := var2;
                       layers := layers adata |} v var2);
    cbn [X var obs layers]; rewrite ?Hr; [reflexivity | | |].
  - cbn [Pandas.rename index] in Hl. congruence.
  - unfold Pandas.getattr in *. now rewrite Hc, Hs.
  - exact Hagain.
Qed.

Lemma normalize_variable_identifiers_idempotent_witness :
  exists adata',
    normalize_variable_identifiers Sample.adata_loom = Some adata' /\
    normalize_variable_identifiers adata' = Some adata'.
Proof.
  eexists. split; [reflexivity|].
  apply (normalize_variable_identifiers_idempotent Sample.adata_loom).
  reflexivity.
Defined.



(** X7.  The gene-identifier fix keeps the shape invariants: a dataset
    that was consistent before a successful run is consistent after
    it. *)
Theorem normalize_variable_identifiers_keeps_consistent
    (adata adata' : AnnData) :
  consistent adata ->
  normalize_variable_identifiers adata = Some adata' ->
  consistent adata'.
Proof.
  intros (Ho & Hv & How & Hser & Hlen) H.
  destruct (fix_inv adata adata' H) as (v & var2 & Hn & _ & Ha & ->).
  destruct (assign_index_facts _ _ _ _ Ha) as (Hc & Hs & Hl & _).
  cbn [Pandas.rename index columns series] in Hc, Hs, Hl.
  unfold consistent, Pandas.well_formed. cbn [X obs var].
  rewrite Hc, Hs, Hl, length_map. destruct How as [How1 How2].
  split; [exact Ho|]. split; [exact Hv|]. split; [now split|].
  now split.
Qed.

Lemma normalize_variable_identifiers_keeps_consistent_witness :
  exists adata',
    normalize_variable_identifiers Sample.adata_loom = Some adata' /\
    consistent adata'.
Proof.
  eexists. split; [reflexivity|].
  apply (normalize_variable_identifiers_keeps_consistent Sample.adata_loom).
  - unfold consistent, Pandas.well_formed. simpl.
    repeat split; repeat constructor.
  - reflexivity.
Defined.

(** ** The csr layout that [csr_matrix] builds *)

Section CsrLayout.

Import Sparse Csr.

Lemma combine_fst_snd {A B : Type} (e : list (A * B)) :
  combine (map fst e) (map snd e) = e.
Proof.
  induction e as [|[a b] e IH]; simpl; [reflexivity|]. now rewrite IH.
Qed.

Lemma ascending_weaken (js : list nat) (lo lo' : nat) :
  lo' <= lo -> ascending lo js = true -> ascending lo' js = true.
Proof.
  destruct js as [|j js]; simpl; [trivial|]. intros Hle H.
  apply andb_true_iff in H as [Hj Hjs]. apply Nat.leb_le in Hj.
  rewrite Hjs, andb_true_r. apply Nat.leb_le. lia.
Qed.

Lemma row_entries_ascending (r : list float64) (j : nat) :
  ascending j (map fst (row_entries j r)) = true.
Proof.
  revert j. induction r as [|x r IH]; intros j; simpl; [reflexivity|].
  destruct (is_nonzero x); simpl.
  - now rewrite Nat.leb_refl, IH.
  - apply (ascending_weaken _ (S j)); [lia | apply IH].
Qed.

Lemma row_entries_bounded (r : list float64) (j : nat) :
  forallb (fun i => i <? j + length r) (map fst (row_entries j r)) = true.
Proof.
  revert j. induction r as [|x r IH]; intros j; [reflexivity|].
  cbn [row_entries length]. specialize (IH (S j)).
  replace (S j + length r) with (j + S (length r)) in IH by lia.
  destruct (is_nonzero x); cbn [map fst forallb]; [|exact IH].
  rewrite IH, andb_true_r. apply Nat.ltb_lt. lia.
Qed.

Lemma row_entries_nonzero (r : list float64) (j : nat) :
  forallb is_nonzero (map snd (row_entries j r)) = true.
Proof.
  revert j. induction r as [|x r IH]; intros j; simpl; [reflexivity|].
  destruct (is_nonzero x) eqn:Hx; simpl; [|apply IH].
  now rewrite Hx, IH.
Qed.

Lemma row_entries_ok (r : list float64) :
  row_ok (length r) (row_entries 0 r) = true.
Proof.
  unfold row_ok.
  rewrite row_entries_ascending, row_entries_nonzero.
  pose proof (row_entries_bounded r 0) as H. cbn [Nat.add] in H.
  now rewrite H.
Qed.

Lemma row_entries_count (r : list float64) (j : nat) :
  length (row_entries j r) = length (filter is_nonzero r).
Proof.
  revert j. induction r as [|x r IH]; intros j; simpl; [reflexivity|].
  destruct (is_nonzero x); simpl; now rewrite IH.
Qed.

Lemma row_pointers_length (rs : list (list float64)) (off : nat) :
  length (row_pointers off rs) = S (length rs).
Proof.
  revert off. induction rs as [|r rs IH]; intros off; simpl; [reflexivity|].
  now rewrite IH.
Qed.

Lemma row_pointers_last (rs : list (list float64)) (off : nat) :
  last (row_pointers off rs) 0 =
  off + length (concat (map (row_entries 0) rs)).
Proof.
  revert off. induction rs as [|r rs IH]; intros off.
  - simpl. lia.
  - cbn [row_pointers map concat].
    destruct (row_pointers_head (off + length (row_entries 0 r)) rs)
      as [p Ep].
    specialize (IH (off + length (row_entries 0 r))). rewrite Ep in IH |- *.
    transitivity (last (off + length (row_entries 0 r) :: p) 0);
      [reflexivity|].
    rewrite IH, length_app. lia.
Qed.

Lemma nondecreasing_cons (a b : nat) (l : list nat) :
  nondecreasing (a :: b :: l) = (a <=? b) && nondecreasing (b :: l).
Proof. reflexivity. Qed.

Lemma pairs_cons (a b : nat) (l : list nat) :
  pairs (a :: b :: l) = (a, b) :: pairs (b :: l).
Proof. reflexivity. Qed.

Lemma row_pointers_nondecreasing (rs : list (list float64)) (off : nat) :
  nondecreasing (row_pointers off rs) = true.
Proof.
  revert off. induction rs as [|r rs IH]; intros off; [reflexivity|].
  cbn [row_pointers].
  destruct (row_pointers_head (off + length (row_entries 0 r)) rs)
    as [p Ep].
  specialize (IH (off + length (row_entries 0 r))). rewrite Ep in IH |- *.
  rewrite nondecreasing_cons, IH, andb_true_r. apply Nat.leb_le. lia.
Qed.

(** Cutting the arrays along the row pointers gives the rows' entries
    back. *)
Lemma slices_of_entries (rs : list (list float64))
    (pre : list (nat * float64)) :
  map (fun p =>
         combine
           (slice (fst p) (snd p)
              (map fst (pre ++ concat (map (row_entries 0) rs))))
           (slice (fst p) (snd p)
              (map snd (pre ++ concat (map (row_entries 0) rs)))))
      (pairs (row_pointers (length pre) rs))
  = map (row_entries 0) rs.
Proof.
  revert pre. induction rs as [|r rs IH]; intros pre; [reflexivity|].
  cbn [row_pointers map concat].
  destruct (row_pointers_head (length pre + length (row_entries 0 r)) rs)
    as [p Ep].
  specialize (IH (pre ++ row_entries 0 r)).
  rewrite length_app, <- app_assoc in IH. rewrite Ep in IH |- *.
  rewrite pairs_cons. cbn [map fst snd]. f_equal; [|exact IH].
  rewrite !map_app.
  rewrite <- (length_map fst pre) at 1 2.
  rewrite <- (length_map fst (row_entries 0 r)) at 1.
  rewrite slice_middle.
  rewrite <- (length_map snd pre), <- (length_map snd (row_entries 0 r)).
  rewrite slice_middle. apply combine_fst_snd.
Qed.

Lemma row_slices_csr_of_dense (a : ndarray) :
  row_slices (csr_of_dense a) = map (row_entries 0) (rows a).
Proof. exact (slices_of_entries (rows a) []). Qed.

End CsrLayout.

(** X8.  [csr_matrix] on a rectangular dense array builds a csr matrix
    in canonical layout: one pointer per row plus one, running from 0 to
    the number of stored entries without decreasing; in every row the
    column numbers increase strictly and stay inside the row; and no
    stored value is a zero. *)
Theorem csr_of_dense_canonical (a : ndarray) :
  Sparse.rectangular a ->
  Csr.canonical (Sparse.csr_of_dense a) = true.
Proof.
  intros [Hrows Hcols]. unfold Csr.canonical.
  rewrite row_slices_csr_of_dense. unfold Sparse.csr_of_dense.
  cbn [indptr c_nrows c_ncols data indices].
  rewrite row_pointers_length, Hrows, Nat.eqb_refl.
  destruct (row_pointers_head 0 (rows a)) as [p Ep].
  rewrite Ep at 1. cbn [hd].
  rewrite row_pointers_last, !length_map. cbn [Nat.add].
  rewrite !Nat.eqb_refl, row_pointers_nondecreasing. cbn [andb].
  apply forallb_forall. intros e He.
  apply in_map_iff in He as (r & <- & Hr).
  rewrite <- (proj1 (Forall_forall _ _) Hcols r Hr).
  apply row_entries_ok.
Qed.

Lemma csr_of_dense_canonical_witness :
  Csr.canonical (Sparse.csr_of_dense Sample.counts) = true.
Proof.
  apply (csr_of_dense_canonical Sample.counts).
  split; [reflexivity | repeat constructor].
Defined.

(** X9.  [csr_matrix] stores exactly the entries that are not zero: the
    number of stored values, and of stored column numbers, is the number
    of non-zero entries of the dense array, and the last row pointer is
    that number. *)
Theorem csr_of_dense_stores_nonzeros (a : ndarray) :
  length (data (Sparse.csr_of_dense a)) = Csr.count_nonzero a /\
  length (indices (Sparse.csr_of_dense a)) = Csr.count_nonzero a /\
  last (indptr (Sparse.csr_of_dense a)) 0 = Csr.count_nonzero a.
Proof.
  assert (E : length (concat (map (Sparse.row_entries 0) (rows a)))
              = Csr.count_nonzero a).
  { rewrite length_concat, map_map. unfold Csr.count_nonzero. f_equal.
    apply map_ext. intros r. apply row_entries_count. }
  unfold Sparse.csr_of_dense. cbn [data indices indptr].
  now rewrite !length_map, row_pointers_last, E.
Qed.

(** ** From canonical csr to dense and back *)

Section CsrBack.

Import Sparse Csr.

Lemma zeros_entries (k j : nat) : row_entries j (repeat pzero k) = [].
Proof. revert j. induction k as [|k IH]; intros j; simpl; auto. Qed.

Lemma scatter_nil (row : list float64) (xs : list float64) :
  scatter row [] xs = row.
Proof. reflexivity. Qed.

(** Scattering the entries of a canonical row over zeros gives a row of
    which they are the entries. *)
Lemma scatter_sorted (k : nat) :
  forall (done : list float64) (e : list (nat * float64)),
    ascending (length done) (map fst e) = true ->
    forallb (fun i => i <? length done + k) (map fst e) = true ->
    forallb is_nonzero (map snd e) = true ->
    exists tail,
      length tail = k /\
      scatter (done ++ repeat pzero k) (map fst e) (map snd e)
        = done ++ tail /\
      row_entries (length done) tail = e.
Proof.
  induction k as [|k IH]; intros done e Hasc Hb Hnz.
  - destruct e as [|[j x] e].
    + exists []. now repeat split.
    + exfalso. cbn [map fst ascending forallb] in Hasc, Hb.
      apply andb_true_iff in Hasc as [Hj _].
      apply andb_true_iff in Hb as [Hj' _].
      apply Nat.leb_le in Hj. apply Nat.ltb_lt in Hj'. lia.
  - destruct e as [|[j x] e].
    + exists (repeat pzero (S k)). rewrite repeat_length.
      repeat split. apply zeros_entries.
    + cbn [map fst snd ascending forallb] in Hasc, Hb, Hnz.
      apply andb_true_iff in Hasc as [Hj Hasc].
      apply andb_true_iff in Hb as [Hj' Hb].
      apply andb_true_iff in Hnz as [Hx Hnz].
      apply Nat.leb_le in Hj. apply Nat.ltb_lt in Hj'.
      destruct (Nat.eq_dec j (length done)) as [->|Hne].
      * destruct (IH (done ++ [x]) e) as (tail & Hlen & Hsc & Hre).
        -- now rewrite length_app, Nat.add_1_r.
        -- rewrite length_app, Nat.add_1_r.
           now replace (S (length done) + k) with (length done + S k)
             by lia.
        -- exact Hnz.
        -- exists (x :: tail). split; [now rewrite <- Hlen|].
           rewrite length_app, Nat.add_1_r in Hre.
           rewrite <- !app_assoc in Hsc. cbn [app] in Hsc.
           split.
           ++ cbn [map fst snd scatter repeat].
              rewrite add_at_middle.
              now rewrite (proj1 (stored_value x Hx)).
           ++ cbn [row_entries]. now rewrite Hx, Hre.
      * destruct (IH (done ++ [pzero]) ((j, x) :: e))
          as (tail & Hlen & Hsc & Hre).
        -- rewrite length_app, Nat.add_1_r. cbn [map fst ascending].
           rewrite Hasc, andb_true_r. apply Nat.leb_le. lia.
        -- rewrite length_app, Nat.add_1_r. cbn [map fst forallb].
           replace (S (length done) + k) with (length done + S k) by lia.
           rewrite Hb, andb_true_r. apply Nat.ltb_lt. lia.
        -- cbn [map snd forallb]. now rewrite Hx, Hnz.
        -- exists (pzero :: tail). split; [now rewrite <- Hlen|].
           rewrite length_app, Nat.add_1_r in Hre.
           rewrite <- !app_assoc in Hsc. cbn [app] in Hsc.
           split; [exact Hsc|].
           cbn [row_entries]. exact Hre.
Qed.

Lemma scatter_row_back (m : nat) (e : list (nat * float64)) :
  row_ok m e = true ->
  row_entries 0 (scatter (repeat pzero m) (map fst e) (map snd e)) = e.
Proof.
  unfold row_ok. intros H.
  apply andb_true_iff in H as [H Hnz]. apply andb_true_iff in H as [Ha Hb].
  destruct (scatter_sorted m [] e Ha Hb Hnz) as (tail & _ & Hsc & Hre).
  cbn [app length] in Hsc, Hre. now rewrite Hsc.
Qed.

Lemma dense_rows_pairs (m : nat) (js : list nat) (xs : list float64)
    (ptr : list nat) :
  dense_rows m ptr js xs =
  map (fun p => scatter (repeat pzero m)
                  (slice (fst p) (snd p) js) (slice (fst p) (snd p) xs))
      (pairs ptr).
Proof.
  induction ptr as [|lo ptr IH]; [reflexivity|].
  destruct ptr as [|hi ptr]; [reflexivity|].
  rewrite pairs_cons. cbn [map fst snd]. rewrite <- IH. reflexivity.
Qed.

Lemma slice_length_eq {A B : Type} (lo hi : nat) (l : list A) (l' : list B) :
  length l = length l' ->
  length (slice lo hi l) = length (slice lo hi l').
Proof.
  intros H. unfold slice. now rewrite !length_firstn, !length_skipn, H.
Qed.

Lemma combine_skipn {A B : Type} (n : nat) (l : list A) (l' : list B) :
  combine (skipn n l) (skipn n l') = skipn n (combine l l').
Proof.
  revert l l'. induction n as [|n IH]; intros l l'; [reflexivity|].
  destruct l as [|a l]; [reflexivity|].
  destruct l' as [|b l']; simpl.
  - now destruct (skipn n l).
  - apply IH.
Qed.

Lemma combine_slice {A B : Type} (lo hi : nat) (l : list A) (l' : list B) :
  combine (slice lo hi l) (slice lo hi l') = slice lo hi (combine l l').
Proof. unfold slice. now rewrite <- combine_firstn, combine_skipn. Qed.

Lemma firstn_plus {A : Type} (a b : nat) (l : list A) :
  firstn a l ++ firstn b (skipn a l) = firstn (a + b) l.
Proof.
  revert l. induction a as [|a IH]; intros l; [reflexivity|].
  destruct l as [|x l]; simpl.
  - now destruct b.
  - now rewrite IH.
Qed.

Lemma slice_app {A : Type} (lo hi hi' : nat) (l : list A) :
  lo <= hi -> hi <= hi' ->
  slice lo hi l ++ slice hi hi' l = slice lo hi' l.
Proof.
  intros H1 H2. unfold slice.
  replace (skipn hi l) with (skipn (hi - lo) (skipn lo l))
    by (rewrite skipn_skipn; f_equal; lia).
  rewrite firstn_plus. f_equal. lia.
Qed.

Lemma nondecreasing_le_last (p : list nat) (lo : nat) :
  nondecreasing (lo :: p) = true -> lo <= last (lo :: p) 0.
Proof.
  revert lo. induction p as [|hi p IH]; intros lo H; [simpl; lia|].
  rewrite nondecreasing_cons in H. apply andb_true_iff in H as [Hle H].
  apply Nat.leb_le in Hle. specialize (IH hi H).
  change (last (lo :: hi :: p) 0) with (last (hi :: p) 0). lia.
Qed.

(** The row slices, put end to end, are the whole arrays. *)
Lemma concat_slices {A : Type} (l : list A) (p : list nat) (lo : nat) :
  nondecreasing (lo :: p) = true ->
  concat (map (fun q => slice (fst q) (snd q) l) (pairs (lo :: p)))
  = slice lo (last (lo :: p) 0) l.
Proof.
  revert lo. induction p as [|hi p IH]; intros lo H.
  - simpl. unfold slice. now rewrite Nat.sub_diag.
  - rewrite nondecreasing_cons in H. apply andb_true_iff in H as [Hle H].
    apply Nat.leb_le in Hle.
    rewrite pairs_cons. cbn [map concat fst snd]. rewrite (IH hi H).
    change (last (lo :: hi :: p) 0) with (last (hi :: p) 0).
    apply slice_app; [exact Hle | now apply nondecreasing_le_last].
Qed.

Lemma slice_whole {A : Type} (l : list A) : slice 0 (length l) l = l.
Proof. unfold slice. rewrite Nat.sub_0_r. simpl. apply firstn_all. Qed.

(** The row pointers rebuilt from the rows are the pointers the slices
    were cut along. *)
Lemma row_pointers_of_slices (js : list nat) (xs : list float64)
    (p : list nat) :
  length js = length xs ->
  forall (lo : nat) (rs : list (list float64)),
    nondecreasing (lo :: p) = true ->
    last (lo :: p) 0 <= length xs ->
    map (row_entries 0) rs =
      map (fun q => combine (slice (fst q) (snd q) js)
                            (slice (fst q) (snd q) xs))
          (pairs (lo :: p)) ->
    row_pointers lo rs = lo :: p.
Proof.
  intros Hlen. induction p as [|hi p IH]; intros lo rs Hnd Hlast Hrs.
  - destruct rs; [reflexivity | discriminate].
  - rewrite pairs_cons in Hrs. destruct rs as [|r rs]; [discriminate|].
    cbn [map fst snd] in Hrs. injection Hrs as Hr Hrs.
    rewrite nondecreasing_cons in Hnd.
    apply andb_true_iff in Hnd as [Hle Hnd]. apply Nat.leb_le in Hle.
    change (last (lo :: hi :: p) 0) with (last (hi :: p) 0) in Hlast.
    pose proof (nondecreasing_le_last p hi Hnd) as Hhi.
    cbn [row_pointers]. rewrite Hr, length_combine.
    rewrite <- (slice_length_eq lo hi js xs Hlen), Nat.min_id.
    unfold slice at 1. rewrite length_firstn, length_skipn.
    replace (lo + Nat.min (hi - lo) (length js - lo)) with hi by lia.
    f_equal. now apply IH.
Qed.








End CsrBack.



(** X10.  A csr matrix in canonical layout survives the way to dense and
    back: [csr_matrix(c.toarray())] is [c] again, pointer for pointer,
    column number for column number and value for value. *)
Theorem csr_of_dense_toarray (c : compressed) :
  Csr.canonical c = true ->
  Sparse.csr_of_dense (Sparse.toarray c) = c.
Proof.
  unfold Csr.canonical. intros H.
  apply andb_true_iff in H as [H Hok].
  apply andb_true_iff in H as [H Hnd].
  apply andb_true_iff in H as [H Hjs].
  apply andb_true_iff in H as [H Hlast].
  apply andb_true_iff in H as [Hn Hhd].
  apply Nat.eqb_eq in Hjs, Hlast, Hhd.
  destruct c as [n m D J P]. cbn [indptr data indices c_nrows c_ncols] in *.
  destruct P as [|lo p]; [discriminate|]. cbn [hd] in Hhd. subst lo.
  assert (Hrows : map (Sparse.row_entries 0)
                    (Sparse.dense_rows m (0 :: p) J D)
                  = Csr.row_slices
                      {| c_nrows := n; c_ncols := m; data := D;
                         indices := J; indptr := 0 :: p |}).
  { rewrite dense_rows_pairs, map_map. unfold Csr.row_slices.
    cbn [indptr data indices].
    apply map_ext_in. intros q Hq.
    assert (Hq' : Csr.row_ok m
                    (combine (Sparse.slice (fst q) (snd q) J)
                             (Sparse.slice (fst q) (snd q) D)) = true).
    { apply (proj1 (forallb_forall _ _) Hok).
      unfold Csr.row_slices. cbn [indptr data indices].
      exact (in_map
               (fun q => combine (Sparse.slice (fst q) (snd q) J)
                                 (Sparse.slice (fst q) (snd q) D))
               _ q Hq). }
    pose proof (scatter_row_back m _ Hq') as E.
    rewrite combine_map_fst, combine_map_snd in E
      by now apply slice_length_eq.
    exact E. }
  assert (Hcat : concat (Csr.row_slices
                           {| c_nrows := n; c_ncols := m; data := D;
                              indices := J; indptr := 0 :: p |})
                 = combine J D).
  { unfold Csr.row_slices. cbn [indptr data indices].
    rewrite (map_ext _ (fun q => Sparse.slice (fst q) (snd q) (combine J D)))
      by (intros q; apply combine_slice).
    rewrite (concat_slices (combine J D) p 0 Hnd), Hlast.
    replace (length D) with (length (combine J D))
      by (rewrite length_combine, Hjs; apply Nat.min_id).
    apply slice_whole. }
  unfold Sparse.csr_of_dense, Sparse.toarray.
  cbn [nrows ncols rows c_nrows c_ncols indptr data indices].
  rewrite Hrows, Hcat, combine_map_fst, combine_map_snd by exact Hjs.
  f_equal.
  apply (row_pointers_of_slices J D p Hjs 0 _ Hnd); [lia | exact Hrows].
Qed.

Lemma csr_of_dense_toarray_witness :
  Sparse.csr_of_dense
    (Sparse.toarray (Sparse.csr_of_dense Sample.counts))
  = Sparse.csr_of_dense Sample.counts.
Proof.
  apply (csr_of_dense_toarray (Sparse.csr_of_dense Sample.counts)).
  reflexivity.
Defined.

(** ** Renaming twice *)

(** X11.  Renaming the matrix twice is renaming it once, to the last
    name: on a dataset with a primary matrix both renamings succeed and
    the outcome is that of the second one applied directly. *)
Theorem rename_matrix_last_wins
    (x : SingleCellExperiment) (first_name second_name : string) :
  assays x <> [] ->
  exists x1 x2,
    rename_matrix x first_name = Some x1 /\
    rename_matrix x1 second_name = Some x2 /\
    rename_matrix x second_name = Some x2.
Proof.
  intros Hne. destruct (assays x) as [|[o m] rest] eqn:E; [congruence|].
  do 2 eexists. split; [apply (rename_matrix_runs x _ o m rest E)|].
  split.
  - now apply rename_matrix_runs with (o := Some first_name) (m := m)
      (rest := map (fun p => (@None string, snd p)) rest).
  - rewrite (rename_matrix_runs x _ o m rest E).
    cbn [rowData colData]. rewrite map_map. reflexivity.
Qed.

Lemma rename_matrix_last_wins_witness :
  exists x1 x2,
    rename_matrix Sample.sce "logcounts" = Some x1 /\
    rename_matrix x1 "counts" = Some x2 /\
    rename_matrix Sample.sce "counts" = Some x2.
Proof.
  apply (rename_matrix_last_wins Sample.sce). discriminate.
Defined.

(** ** The bridge, there and back *)

Section BridgeRoundTrips.

Import Bridge.

Lemma map_nth_seq {A : Type} (l : list A) (d : A) :
  map (fun i => nth i l d) (seq 0 (length l)) = l.
Proof.
  apply (nth_ext _ _ d d).
  - now rewrite length_map, length_seq.
  - intros i Hi. rewrite length_map, length_seq in Hi.
    rewrite (nth_indep _ d (nth (length l) l d))
      by now rewrite length_map, length_seq.
    rewrite (map_nth (fun i => nth i l d) (seq 0 (length l)) (length l) i).
    now rewrite seq_nth.
Qed.

Lemma transpose_rectangular (a : ndarray) :
  Sparse.rectangular a -> Sparse.rectangular (transpose a).
Proof.
  intros [Hrows _]. unfold Sparse.rectangular, transpose. cbn [rows nrows ncols].
  split.
  - now rewrite length_map, length_seq.
  - apply Forall_forall. intros r Hr.
    apply in_map_iff in Hr as (j & <- & _). now rewrite length_map.
Qed.

(** Turning a rectangular array over twice gives it back. *)
Lemma transpose_involutive (a : ndarray) :
  Sparse.rectangular a -> transpose (transpose a) = a.
Proof.
  intros [Hrows Hcols]. destruct a as [n m rs].
  unfold transpose. cbn [rows nrows ncols] in *. f_equal.
  subst n.
  transitivity (map (fun j => nth j rs []) (seq 0 (length rs)));
    [|apply map_nth_seq].
  apply map_ext_in. intros j Hj. apply in_seq in Hj.
  assert (Hrow : length (nth j rs []) = m).
  { apply (proj1 (Forall_forall _ _) Hcols). apply nth_In. lia. }
  transitivity (map (fun i => nth i (nth j rs []) pzero)
                    (seq 0 (length (nth j rs []))));
    [|apply map_nth_seq].
  rewrite Hrow, map_map. apply map_ext_in. intros i Hi.
  rewrite (nth_indep _ pzero ((fun r => nth i r pzero) []))
    by (rewrite length_map; lia).
  now rewrite (map_nth (fun r => nth i r pzero) rs [] j).
Qed.


Lemma to_r_to_py (m : rmatrix) :
  r_rectangular m -> to_r (to_py m) = m.
Proof.
  destruct m as [a|c]; simpl; intros H; [|reflexivity].
  now rewrite transpose_involutive.
Qed.


(** A frame whose column names R leaves alone goes to Python and comes
    back as it was. *)
Lemma frame_r_python_r (f : DFrame) :
  R.check_names (colnames f) = Some (colnames f) ->
  frame_to_r (frame_to_py f) = Some f.
Proof.
  intros Hc. destruct (check_names_inv _ _ Hc) as [_ Hfix].
  assert (Hnd : NoDup (colnames f))
    by now apply (make_names_fixed (colnames f)).
  rewrite (frame_to_py_distinct f Hnd). unfold frame_to_r, Pandas.items.
  cbn [columns series index]. unfold colnames in *.
  rewrite combine_fst_snd, (dict_distinct _ Hnd), Hc. cbn [bind].
  rewrite combine_fst_snd. now destruct f.
Qed.


Lemma frame_to_py_well_formed (f : DFrame) :
  R.well_formed f -> Pandas.well_formed (frame_to_py f).
Proof.
  intros Hw. unfold Pandas.well_formed, frame_to_py.
  cbn [index columns series]. split; [now rewrite !length_map|].
  apply Forall_forall. intros c Hc.
  apply in_map_iff in Hc as (p & <- & Hp). apply dict_in in Hp.
  exact (proj1 (Forall_forall _ _) Hw p Hp).
Qed.

Lemma frame_to_r_well_formed (df : DataFrame) (f : DFrame) :
  Pandas.well_formed df -> frame_to_r df = Some f -> R.well_formed f.
Proof.
  intros [_ Hw] Hf. destruct (frame_to_r_inv df f Hf) as (_ & Hr & _ & Hd).
  unfold R.well_formed. rewrite Hr.
  apply (Forall_map snd (fun c => length c = length (index df))).
  rewrite Hd. apply Forall_forall. intros c Hc.
  apply in_map_iff in Hc as ([l c'] & <- & Hp). apply dict_in in Hp.
  apply in_combine_r in Hp.
  exact (proj1 (Forall_forall _ _) Hw c' Hp).
Qed.

End BridgeRoundTrips.



(** X13.  R to Python and back: a dataset with one named rectangular
    assay and column names that R accepts as they are goes to Python and
    comes back with its frames and its matrix intact, but with the assay
    called [X]; renaming the matrix to the old name restores the dataset
    exactly. *)
Theorem bridge_r_python_r
    (x : SingleCellExperiment) (name : string) (m : rmatrix) :
  assays x = [(Some name, m)] ->
  r_rectangular m ->
  R.check_names (colnames (rowData x)) = Some (colnames (rowData x)) ->
  R.check_names (colnames (colData x)) = Some (colnames (colData x)) ->
  exists adata x',
    Bridge.r2py x = Some adata /\
    Bridge.py2r adata = Some x' /\
    assays x' = [(Some "X"%string, m)] /\
    rowData x' = rowData x /\
    colData x' = colData x /\
    rename_matrix x' name = Some x.
Proof.
  intros Hx Hm Hr Hc.
  exists {| X := Bridge.to_py m; obs := Bridge.frame_to_py (colData x);
            var := Bridge.frame_to_py (rowData x); layers := [] |}.
  eexists. split; [unfold Bridge.r2py; now rewrite Hx|].
  split.
  - apply py2r_runs; cbn [obs var]; now apply frame_r_python_r.
  - cbn [assays rowData colData X layers map].
    rewrite (to_r_to_py m Hm). repeat split.
    unfold rename_matrix. cbn [assays R.set_names bind map rowData colData].
    destruct x as [a rd cd]. cbn [assays rowData colData] in *. now subst a.
Qed.

Lemma bridge_r_python_r_witness :
  exists adata x',
    Bridge.r2py
      {| assays := [(Some "counts"%string,
                     RDense (Bridge.transpose Sample.counts))];
         rowData := Sample.r_frame Sample.genes;
         colData := Sample.r_frame Sample.cells_loom |}
      = Some adata /\
    Bridge.py2r adata = Some x' /\
    assays x' = [(Some "X"%string, RDense (Bridge.transpose Sample.counts))] /\
    rowData x' = Sample.r_frame Sample.genes /\
    colData x' = Sample.r_frame Sample.cells_loom /\
    rename_matrix x' "counts"
      = Some {| assays := [(Some "counts"%string,
                            RDense (Bridge.transpose Sample.counts))];
                rowData := Sample.r_frame Sample.genes;
                colData := Sample.r_frame Sample.cells_loom |}.
Proof.
  apply (bridge_r_python_r
           {| assays := [(Some "counts"%string,
                          RDense (Bridge.transpose Sample.counts))];
              rowData := Sample.r_frame Sample.genes;
              colData := Sample.r_frame Sample.cells_loom |}
           "counts" (RDense (Bridge.transpose Sample.counts)));
    try reflexivity.
  split; [reflexivity | repeat constructor].
Defined.

(** ** The names R gives *)

(** X14.  The name R makes of any label is a syntactic R name (it starts
    with a letter, or with a period that no digit follows, holds only
    letters, digits, periods and underscores, and is no reserved word),
    and the labels R leaves as they are are exactly the syntactic ones. *)
Theorem make_name_gives_syntactic_names (s : string) :
  syntactic (R.make_name s) = true /\
  (R.make_name s = s <-> syntactic s = true).
Proof.
  split; [apply make_name_syntactic|]. split.
  - intros E. rewrite <- E. apply make_name_syntactic.
  - apply syntactic_fixed.
Qed.

(** A Latin-1 letter is a letter to R: [caf] followed by U+00E9 stays as
    it is. *)
Example make_name_keeps_latin_letters :
  R.make_name (String "c" (String "a" (String "f"
                 (String (ascii_of_nat 233) EmptyString))))
  = String "c" (String "a" (String "f"
      (String (ascii_of_nat 233) EmptyString))).
Proof. reflexivity. Qed.

(** Labels that fall together are numbered, the ones [make.names] left
    alone first: R gives [a.b.1], [a.b], [a.b.2] here. *)
Example make_names_numbers_repeats :
  R.make_names ["a b"; "a.b"; "a b"]%string
  = ["a.b.1"; "a.b"; "a.b.2"]%string.
Proof. reflexivity. Qed.

(** Names in use are stepped over: R gives [a], [a.2], [a.1] here. *)
Example make_unique_skips_used_names :
  R.make_unique ["a"; "a"; "a.1"]%string = ["a"; "a.2"; "a.1"]%string.
Proof. reflexivity. Qed.

(** ** Cells 10 and 11 in a row: to Python, to sparse storage, to R *)

(** X15.  The last two cells of the notebook, one after the other: an R
    dataset with a dense rectangular first assay is handed to Python, its
    matrix compressed with [csr_matrix], the dataset handed back to R and
    its matrix renamed to ["counts"].  Whenever both hand-overs succeed
    the renaming succeeds, the first assay is called ["counts"], it has
    the shape of the original assay, and each of its entries is the
    original entry (a negative zero as the positive zero). *)
Theorem sparse_then_rename
    (x x' : SingleCellExperiment) (adata : AnnData)
    (o : option string) (a : ndarray)
    (rest : list (option string * rmatrix)) :
  assays x = (o, RDense a) :: rest ->
  Sparse.rectangular a ->
  Bridge.r2py x = Some adata ->
  Bridge.py2r (coerce_matrix_sparse adata) = Some x' ->
  exists x'' m rest',
    rename_matrix x' "counts" = Some x'' /\
    assays x'' = (Some "counts"%string, m) :: rest' /\
    R.shape m = (nrows a, ncols a) /\
    (forall i j,
       R.entry m i j =
       option_map Sparse.drop_zero_sign (Sparse.dense_entry a i j)).
Proof.
  intros Hx Hrect Hconv Hback.
  destruct (r2py_parts x adata Hconv) as (o' & m' & rest' & Hx' & HX & _).
  rewrite Hx in Hx'. injection Hx' as <- <- <-.
  destruct (py2r_inv _ x' Hback) as (_ & _ & Hx').
  cbn [coerce_matrix_sparse X layers] in Hx'.
  rewrite HX in Hx'. cbn [Bridge.to_py Sparse.csr_matrix Bridge.to_r] in Hx'.
  do 3 eexists. split; [exact (rename_matrix_runs x' _ _ _ _ Hx')|].
  cbn [assays]. split; [reflexivity|]. split; [reflexivity|].
  intros i j. cbn [R.entry].
  rewrite (toarray_csr_of_dense _ (transpose_rectangular a Hrect)).
  rewrite dense_entry_map. f_equal. now apply transpose_entry.
Qed.

Lemma sparse_then_rename_witness :
  exists x'' m rest',
    rename_matrix
      {| assays := [(Some "X"%string,
                     RdgC (Sparse.csr_of_dense Sample.counts))];
         rowData := Sample.r_frame Sample.genes;
         colData := Sample.r_frame Sample.cells_loom |}
      "counts" = Some x'' /\
    assays x'' = (Some "counts"%string, m) :: rest' /\
    R.shape m = (3, 2) /\
    (forall i j,
       R.entry m i j =
       option_map Sparse.drop_zero_sign
         (Sparse.dense_entry (Bridge.transpose Sample.counts) i j)).
Proof.
  refine (sparse_then_rename
           {| assays := [(Some "counts"%string,
                          RDense (Bridge.transpose Sample.counts))];
              rowData := Sample.r_frame Sample.genes;
              colData := Sample.r_frame Sample.cells_loom |}
           {| assays := [(Some "X"%string,
                          RdgC (Sparse.csr_of_dense Sample.counts))];
              rowData := Sample.r_frame Sample.genes;
              colData := Sample.r_frame Sample.cells_loom |}
           {| X := PyDense Sample.counts; obs := Sample.cells_loom;
              var := Sample.genes; layers := [] |}
           (Some "counts"%string) (Bridge.transpose Sample.counts) []
           eq_refl _ eq_refl eq_refl).
  split; [reflexivity | repeat constructor].
Defined.

(** ** The bridge and the shape invariants *)

(** X16.  The bridge keeps the shape invariants in both directions: a
    consistent R dataset arrives in Python as a consistent AnnData, and a
    consistent AnnData arrives in R with one row of [rowData] per assay
    row, one row of [colData] per assay column and well-formed frames. *)
Theorem bridge_keeps_consistent
    (x : SingleCellExperiment) (adata : AnnData) :
  (r_consistent x -> Bridge.r2py x = Some adata -> consistent adata) /\
  (consistent adata -> Bridge.py2r adata = Some x -> r_consistent x).
Proof.
  split.
  - intros (o & m & rest & Hx & Hr & Hc & Hrw & Hcw) Hconv.
    destruct (r2py_parts x adata Hconv)
      as (o' & m' & rest' & Hx' & HX & Ho & Hv).
    rewrite Hx in Hx'. injection Hx' as <- <- <-.
    unfold consistent. rewrite HX, Ho, Hv, to_py_shape. cbn [fst snd].
    split; [exact Hc|]. split; [exact Hr|].
    split; now apply frame_to_py_well_formed.
  - intros (Ho & Hv & How & Hvw) Hconv.
    destruct (py2r_inv adata x Hconv) as (Hcd & Hrd & Hx).
    eexists. eexists. eexists. split; [exact Hx|].
    destruct (frame_to_r_inv _ _ Hcd) as (_ & -> & _).
    destruct (frame_to_r_inv _ _ Hrd) as (_ & -> & _).
    assert (Hs : R.shape (Bridge.to_r (X adata))
                 = (snd (Sparse.shape (X adata)),
                    fst (Sparse.shape (X adata))))
      by now destruct (X adata).
    rewrite Hs. cbn [fst snd].
    split; [exact Hv|]. split; [exact Ho|].
    split; [exact (frame_to_r_well_formed _ _ Hvw Hrd)
           | exact (frame_to_r_well_formed _ _ How Hcd)].
Qed.

Lemma bridge_keeps_consistent_witness :
  (exists adata, Bridge.r2py Sample.sce = Some adata /\ consistent adata) /\
  (exists x, Bridge.py2r Sample.adata = Some x /\ r_consistent x).
Proof.
  assert (Hc : consistent Sample.adata).
  { unfold consistent, Pandas.well_formed. simpl.
    repeat split; repeat constructor. }
  split.
  - eexists. split; [reflexivity|].
    apply (proj1 (bridge_keeps_consistent Sample.sce _)); [|reflexivity].
    exists (Some "X"%string), (RDense (Bridge.transpose Sample.counts)), [].
    unfold R.well_formed. simpl. repeat split; repeat constructor.
  - eexists. split; [reflexivity|].
    now apply (proj2 (bridge_keeps_consistent _ Sample.adata)).
Defined.

(** ** Feature names (cell 2) *)

Section FeatureNames.

Import Scater.

Lemma nth_error_combine {A B : Type} (l : list A) (l' : list B) (i : nat) :
  nth_error (combine l l') i =
  match nth_error l i, nth_error l' i with
  | Some a, Some b => Some (a, b)
  | _, _ => None
  end.
Proof.
  revert l l'. induction i as [|i IH]; intros [|a l] [|b l']; simpl;
    try reflexivity.
  - now destruct (nth_error l i).
  - apply IH.
Qed.

Lemma fill_length (ID : list string) (names : list (option string)) :
  length ID = length names -> length (fill ID names) = length ID.
Proof.
  intros H. unfold fill. rewrite length_map, length_combine, <- H.
  apply Nat.min_id.
Qed.

Lemma count_two (l : list string) (a : string) (i j : nat) :
  i <> j -> nth_error l i = Some a -> nth_error l j = Some a ->
  2 <= count_occ string_dec l a.
Proof.
  revert i j. induction l as [|x l IH]; intros i j Hij Hi Hj.
  - now destruct i.
  - destruct i as [|i], j as [|j]; simpl in Hi, Hj.
    + now elim Hij.
    + injection Hi as ->. apply nth_error_In in Hj.
      apply (count_occ_In string_dec) in Hj.
      rewrite count_occ_cons_eq by reflexivity. lia.
    + injection Hj as ->. apply nth_error_In in Hi.
      apply (count_occ_In string_dec) in Hi.
      rewrite count_occ_cons_eq by reflexivity. lia.
    + assert (H := IH i j (fun E => Hij (f_equal S E)) Hi Hj).
      cbn [count_occ]. destruct (string_dec x a); lia.
Qed.

Lemma uniquify_at (ID : list string) (names : list (option string))
    (out : list string) (k : nat) (id a : string) :
  uniquifyFeatureNames ID names = Some out ->
  nth_error ID k = Some id ->
  nth_error (fill ID names) k = Some a ->
  nth_error out k =
  Some (if repeated (fill ID names) a then (a ++ "_" ++ id)%string else a).
Proof.
  unfold uniquifyFeatureNames.
  destruct (length ID =? length names); [|discriminate].
  intros [= <-] Hid Ha.
  now rewrite nth_error_map, nth_error_combine, Hid, Ha.
Qed.

End FeatureNames.

(** X17.  [uniquifyFeatureNames] keeps apart the features that share a
    name: when the identifiers are pairwise distinct, two different
    features whose names (the identifier standing in for a missing name)
    agree both get that name followed by an underscore and their own
    identifier, and so get different names. *)
Theorem uniquifyFeatureNames_separates
    (ID : list string) (names : list (option string)) (out : list string)
    (i j : nat) (a id_i id_j : string) :
  NoDup ID ->
  Scater.uniquifyFeatureNames ID names = Some out ->
  i <> j ->
  nth_error ID i = Some id_i ->
  nth_error ID j = Some id_j ->
  nth_error (Scater.fill ID names) i = Some a ->
  nth_error (Scater.fill ID names) j = Some a ->
  nth_error out i = Some (a ++ "_" ++ id_i)%string /\
  nth_error out j = Some (a ++ "_" ++ id_j)%string /\
  nth_error out i <> nth_error out j.
Proof.
  intros Hnd Hout Hij Hi Hj Hai Haj.
  assert (Hrep : Scater.repeated (Scater.fill ID names) a = true).
  { apply Nat.ltb_lt. apply (count_two _ a i j); assumption. }
  rewrite (uniquify_at ID names out i id_i a Hout Hi Hai).
  rewrite (uniquify_at ID names out j id_j a Hout Hj Haj).
  rewrite Hrep. repeat split. intros [= E].
  apply append_cancel in E. injection E as E.
  apply Hij. apply (proj1 (NoDup_nth_error ID) Hnd).
  - apply nth_error_Some. congruence.
  - congruence.
Qed.

Lemma uniquifyFeatureNames_separates_witness :
  exists out,
    Scater.uniquifyFeatureNames
      ["ENSMUSG01"; "ENSMUSG02"; "ENSMUSG03"; "ENSMUSG04"]%string
      [Some "Pcdh1"; Some "Actb"; Some "Pcdh1"; None]%string = Some out /\
    nth_error out 0 = Some "Pcdh1_ENSMUSG01"%string /\
    nth_error out 2 = Some "Pcdh1_ENSMUSG03"%string /\
    nth_error out 0 <> nth_error out 2.
Proof.
  eexists. split; [reflexivity|].
  apply (uniquifyFeatureNames_separates
           ["ENSMUSG01"; "ENSMUSG02"; "ENSMUSG03"; "ENSMUSG04"]%string
           [Some "Pcdh1"; Some "Actb"; Some "Pcdh1"; None]%string
           _ 0 2 "Pcdh1"); try reflexivity.
  - repeat constructor; simpl; intuition discriminate.
  - discriminate.
Defined.

(** X18.  [uniquifyFeatureNames] refuses vectors of different lengths
    and otherwise returns one name per feature; a feature whose name is
    shared with no other feature keeps it, a feature without a name that
    shares its identifier with no name gets the identifier. *)
Theorem uniquifyFeatureNames_keeps_single_names
    (ID : list string) (names : list (option string)) :
  (Scater.uniquifyFeatureNames ID names = None <->
   length ID <> length names) /\
  (forall out,
     Scater.uniquifyFeatureNames ID names = Some out ->
     length out = length ID /\
     forall k id name,
       nth_error ID k = Some id ->
       nth_error names k = Some name ->
       count_occ string_dec (Scater.fill ID names)
         (match name with Some n => n | None => id end) = 1 ->
       nth_error out k = Some (match name with Some n => n | None => id end)).
Proof.
  split.
  - unfold Scater.uniquifyFeatureNames.
    destruct (Nat.eqb_spec (length ID) (length names)) as [E|E].
    + split; [discriminate | now intros H].
    + now split.
  - intros out Hout. split.
    + revert Hout. unfold Scater.uniquifyFeatureNames.
      destruct (Nat.eqb_spec (length ID) (length names)) as [E|E];
        [|discriminate].
      intros [= <-]. rewrite length_map, length_combine.
      rewrite (fill_length ID names E). apply Nat.min_id.
    + intros k id name Hid Hname Hcount.
      assert (Ha : nth_error (Scater.fill ID names) k
                   = Some (match name with Some n => n | None => id end)).
      { unfold Scater.fill.
        now rewrite nth_error_map, nth_error_combine, Hid, Hname. }
      rewrite (uniquify_at ID names out k id _ Hout Hid Ha).
      unfold Scater.repeated. now rewrite Hcount.
Qed.

Lemma uniquifyFeatureNames_keeps_single_names_witness :
  exists out,
    Scater.uniquifyFeatureNames
      ["ENSMUSG01"; "ENSMUSG02"; "ENSMUSG03"; "ENSMUSG04"]%string
      [Some "Pcdh1"; Some "Actb"; Some "Pcdh1"; None]%string = Some out /\
    length out = 4 /\
    nth_error out 1 = Some "Actb"%string /\
    nth_error out 3 = Some "ENSMUSG04"%string.
Proof.
  eexists. split; [reflexivity|].
  destruct (proj2 (uniquifyFeatureNames_keeps_single_names
                     ["ENSMUSG01"; "ENSMUSG02"; "ENSMUSG03"; "ENSMUSG04"]%string
                     [Some "Pcdh1"; Some "Actb"; Some "Pcdh1"; None]%string)
              _ eq_refl) as [Hlen Hat].
  split; [exact Hlen|]. split.
  - exact (Hat 1 "ENSMUSG02"%string (Some "Actb"%string)
             eq_refl eq_refl eq_refl).
  - exact (Hat 3 "ENSMUSG04"%string None eq_refl eq_refl eq_refl).
Defined.
